(** * Transcript demultiplexer and RTM message listener

    A shallow embedding of the transcript pipeline of the voice coding
    assistant:

    - [JsString]: JavaScript strings as sequences of UTF-16 code units,
      with the [String.prototype] operations the program calls;
    - [Demux]: [parseAgentResponse], which separates spoken text from
      code wrapped in black lenticular brackets, and the ordered
      decomposition of a text it is compared with;
    - [Message]: the messages the client hands to the page;
    - [Page]: the page state, the transcription callback installed by
      the page and [handleDisconnect];
    - [Rtm]: the ["message"] listener that [initializeRTM] registers in
      [src/lib/agora-client.ts], and [Delivery]: the listener with its
      first line, which sits outside the [try] block;
    - [Versions], [Format], [ExportProject]: the version selector,
      [formatHTML] and the captures of [exportProject];
    - [Client]: the methods of [AgoraConversationalClient];
    - [Samples]: events and states the properties are run on.

    The properties follow the definitions: facts on the string
    operations, on the matches and on the loop of [parseAgentResponse],
    then the properties of the demultiplexer, of the page handlers and
    of the listener. *)

From Stdlib Require Import NArith Ascii String Floats.
From stdpp Require Import base list gmap strings.

Local Open Scope N_scope.

(** ** JavaScript strings *)

Module JsString.

(** A JavaScript string is a finite sequence of 16-bit code units.  Every
    operation below works code unit by code unit, as the ones of
    [String.prototype] do. *)
Definition char := N.
Definition jsstring := list char.

(** String literals of the source that only hold ASCII characters. *)
Definition lit (s : string) : jsstring :=
  map N_of_ascii (list_ascii_of_string s).

(** [s.startsWith(pat)], also the test "[pat] occurs in [s] at this
    position" that [includes] and [replace] are built on. *)
Fixpoint startsWith (s pat : jsstring) {struct pat} : bool :=
  match pat, s with
  | [], _ => true
  | _ :: _, [] => false
  | p :: pat', c :: s' => (c =? p) && startsWith s' pat'
  end.

(** [s.includes(pat)]. *)
Fixpoint includes (s pat : jsstring) : bool :=
  startsWith s pat ||
  match s with
  | [] => false
  | _ :: s' => includes s' pat
  end.

(** [s.endsWith(pat)]. *)
Definition endsWith (s pat : jsstring) : bool :=
  startsWith (reverse s) (reverse pat).

(** [s.replace(pat, repl)] with a string pattern: only the first
    occurrence is replaced.  The program only passes the empty string as
    replacement, so the [$] patterns of replacement strings play no role. *)
Fixpoint replace (s pat repl : jsstring) : jsstring :=
  if startsWith s pat then repl ++ drop (length pat) s
  else match s with
       | [] => []
       | c :: s' => c :: replace s' pat repl
       end.

(** [s.slice(1, -1)]: drop the first and the last code unit. *)
Definition slice_1_m1 (s : jsstring) : jsstring :=
  take (length s - 1 - 1)%nat (drop 1 s).

(** White space and line terminators, the code units [trim] removes. *)
Definition is_ws (c : char) : bool :=
  ((9 <=? c) && (c <=? 13)) || (c =? 32) || (c =? 160) || (c =? 5760)
  || ((8192 <=? c) && (c <=? 8202)) || (c =? 8232) || (c =? 8233)
  || (c =? 8239) || (c =? 8287) || (c =? 12288) || (c =? 65279).

(** The class [\w] of a regular expression without the [u] and [i]
    flags: ASCII letters, digits and the underscore. *)
Definition is_word (c : char) : bool :=
  ((48 <=? c) && (c <=? 57)) || ((65 <=? c) && (c <=? 90))
  || (c =? 95) || ((97 <=? c) && (c <=? 122)).

Fixpoint dropWhile (p : char -> bool) (s : jsstring) : jsstring :=
  match s with
  | [] => []
  | c :: s' => if p c then dropWhile p s' else s
  end.

Definition trimStart (s : jsstring) : jsstring := dropWhile is_ws s.
Definition trimEnd (s : jsstring) : jsstring :=
  reverse (dropWhile is_ws (reverse s)).

(** [s.trim()]. *)
Definition trim (s : jsstring) : jsstring := trimEnd (trimStart s).

(** Equality of strings, [===] on two strings. *)
Fixpoint eqb (s t : jsstring) : bool :=
  match s, t with
  | [], [] => true
  | c :: s', d :: t' => (c =? d) && eqb s' t'
  | _, _ => false
  end.

(** ASCII lower-casing, enough for the case-insensitive comparison of
    the markers, which are ASCII. *)
Definition lower (c : char) : char :=
  if (65 <=? c) && (c <=? 90) then c + 32 else c.

End JsString.
Export JsString.

(** ** The demultiplexer: [parseAgentResponse] *)

Module Demux.

(** The delimiters: U+3010 and U+3011, one code unit each. *)
Definition OPEN : char := 12304.
Definition CLOSE : char := 12305.

Definition BACKTICK : char := 96.
Definition NEWLINE : char := 10.
Definition fence : jsstring := [BACKTICK; BACKTICK; BACKTICK].

(** The lazy body [[\s\S]*?] followed by the close bracket: the shortest
    run of arbitrary code units up to the first close bracket.  Returns
    the run and what follows the bracket. *)
Fixpoint find_close (s : jsstring) : option (jsstring * jsstring) :=
  match s with
  | [] => None
  | c :: s' =>
      if c =? CLOSE then Some ([], s')
      else match find_close s' with
           | Some (body, rest) => Some (c :: body, rest)
           | None => None
           end
  end.

(** [text.matchAll(codeRegex)], keeping [match[0]] of every match.  The
    loop of the regular expression engine: try a match at the current
    index; on success resume after the match, otherwise move one code
    unit on.  The [i] flag changes nothing, neither bracket has a case
    variant.  One unit of fuel is spent per attempt, and an attempt
    consumes at least one code unit. *)
Fixpoint matchAll_from (fuel : nat) (s : jsstring) : list jsstring :=
  match fuel with
  | O => []
  | S fuel' =>
      match s with
      | [] => []
      | c :: s' =>
          if c =? OPEN then
            match find_close s' with
            | Some (body, rest) =>
                (OPEN :: body ++ [CLOSE]) :: matchAll_from fuel' rest
            | None => matchAll_from fuel' s'
            end
          else matchAll_from fuel' s'
      end
  end.

Definition matchAll (text : jsstring) : list jsstring :=
  matchAll_from (length text) text.

(** [content.replace(/^```[\w]*\n?/g, "")]: without the [m] flag the
    anchor only holds at index 0, so at most one match is replaced: an
    opening fence, the longest run of word characters and one newline. *)
Definition strip_open_fence (content : jsstring) : jsstring :=
  if startsWith content fence then
    match dropWhile is_word (drop 3 content) with
    | c :: s' => if c =? NEWLINE then s' else c :: s'
    | [] => []
    end
  else content.

(** [content.replace(/```$/g, "")]: the anchor only holds at the end of
    the string, so the last three code units go when they are a fence. *)
Definition strip_close_fence (content : jsstring) : jsstring :=
  if endsWith content fence then take (length content - 3)%nat content
  else content.

(** The content of a match as the loop body computes it: brackets
    removed, fences removed, trimmed. *)
Definition cleaned (m : jsstring) : jsstring :=
  trim (strip_close_fence (strip_open_fence (slice_1_m1 m))).

(** The validation of the loop body:
    [content.includes("<html") || content.includes("<!DOCTYPE")]. *)
Definition isHtml (content : jsstring) : bool :=
  includes content (lit "<html") || includes content (lit "<!DOCTYPE").

Record ParseResult := mkParseResult {
  spokenText : jsstring;
  codes : list jsstring
}.

(** One iteration of [for (const match of matches)], on the two
    variables the loop updates. *)
Definition parse_step (acc : jsstring * list jsstring) (m : jsstring)
  : jsstring * list jsstring :=
  let content := cleaned m in
  if isHtml content
  then (replace acc.1 m [], acc.2 ++ [content])
  else acc.

Definition parseAgentResponse (text : jsstring) : ParseResult :=
  let acc := foldl parse_step (text, []) (matchAll text) in
  {| spokenText := trim acc.1; codes := acc.2 |}.

(** *** The ordered decomposition of a text

    [parseAgentResponse] returns the spoken text in one piece and the
    code payloads in a list.  The decomposition below keeps the order:
    it cuts the text at the matches of [matchAll] and classifies every
    match with the validation of the loop body. *)

Inductive ContentSpan :=
| Speech (text : jsstring)
| CodePayload (raw cleaned : jsstring).

(** Speech grows code unit by code unit; adjacent speech is one span. *)
Definition speech_cons (c : char) (l : list ContentSpan) : list ContentSpan :=
  match l with
  | Speech t :: l' => Speech (c :: t) :: l'
  | _ => Speech [c] :: l
  end.

Definition speech_app (t : jsstring) (l : list ContentSpan)
  : list ContentSpan :=
  foldr speech_cons l t.

Fixpoint spans_from (fuel : nat) (s : jsstring) : list ContentSpan :=
  match fuel with
  | O => []
  | S fuel' =>
      match s with
      | [] => []
      | c :: s' =>
          if c =? OPEN then
            match find_close s' with
            | Some (body, rest) =>
                let m := OPEN :: body ++ [CLOSE] in
                if isHtml (cleaned m)
                then CodePayload body (cleaned m) :: spans_from fuel' rest
                else speech_app m (spans_from fuel' rest)
            | None => speech_cons c (spans_from fuel' s')
            end
          else speech_cons c (spans_from fuel' s')
      end
  end.

Definition spans (text : jsstring) : list ContentSpan :=
  spans_from (length text) text.

(** The text a span stands for, delimiters put back around code. *)
Definition span_source (sp : ContentSpan) : jsstring :=
  match sp with
  | Speech t => t
  | CodePayload raw _ => OPEN :: raw ++ [CLOSE]
  end.

Definition reassemble (l : list ContentSpan) : jsstring :=
  mjoin (span_source <$> l).

Definition span_speech (sp : ContentSpan) : jsstring :=
  match sp with
  | Speech t => t
  | CodePayload _ _ => []
  end.

Definition speech_of (l : list ContentSpan) : jsstring :=
  mjoin (span_speech <$> l).

Definition payloads_of (l : list ContentSpan) : list jsstring :=
  omap (fun sp => match sp with
                  | Speech _ => None
                  | CodePayload _ c => Some c
                  end) l.

(** The value [parseAgentResponse] returns, read as a span sequence: the
    spoken text, then the code payloads. *)
Definition returned_spans (r : ParseResult) : list ContentSpan :=
  Speech (spokenText r) :: ((fun c => CodePayload c c) <$> codes r).

(** The document-root test as the specification words it: the content
    starts, after trimming, with a doctype declaration or with the
    opening tag of the root element, compared case-insensitively. *)
Definition spec_document_root (content : jsstring) : bool :=
  let head := lower <$> trim content in
  startsWith head (lit "<!doctype") || startsWith head (lit "<html").

(** A prefix [K] of the spoken text that the removal of a renderable
    match steps over: the first occurrence of the match is not in it. *)
Definition stepped_over (K : jsstring) : Prop :=
  forall body s, CLOSE ∉ body -> isHtml body = true ->
    replace (K ++ s) (OPEN :: body ++ [CLOSE]) []
    = K ++ replace s (OPEN :: body ++ [CLOSE]) [].

End Demux.
Export Demux.

(** ** Messages handed to the page *)

Module Message.

Inductive Speaker := user | agent.

(** [interface TranscriptionMessage] of [agora-client.ts]. *)
Record TranscriptionMessage := {
  type : Speaker;
  text : jsstring;
  isFinal : bool;
  timestamp : N
}.

End Message.

(** ** The page: transcription callback and disconnection *)

Module Page.

Import Message.

Record TranscriptEntry := {
  entry_type : Speaker;
  entry_text : jsstring;
  entry_timestamp : N
}.

Record CodeBlock := {
  html : jsstring;
  block_timestamp : N
}.

(** The state of the page component that the two handlers read or write. *)
Record PageState := {
  isConnected : bool;
  isMicActive : bool;
  isGeneratingCode : bool;
  transcript : list TranscriptEntry;
  codeBlocks : list CodeBlock;
  currentCode : jsstring;
  agentId : option jsstring;
  agoraClientRef : option jsstring   (* the live client, by its channel *)
}.

Definition setIsConnected (b : bool) (st : PageState) : PageState :=
  {| isConnected := b; isMicActive := isMicActive st;
     isGeneratingCode := isGeneratingCode st; transcript := transcript st;
     codeBlocks := codeBlocks st; currentCode := currentCode st;
     agentId := agentId st; agoraClientRef := agoraClientRef st |}.

Definition setIsMicActive (b : bool) (st : PageState) : PageState :=
  {| isConnected := isConnected st; isMicActive := b;
     isGeneratingCode := isGeneratingCode st; transcript := transcript st;
     codeBlocks := codeBlocks st; currentCode := currentCode st;
     agentId := agentId st; agoraClientRef := agoraClientRef st |}.

Definition setIsGeneratingCode (b : bool) (st : PageState) : PageState :=
  {| isConnected := isConnected st; isMicActive := isMicActive st;
     isGeneratingCode := b; transcript := transcript st;
     codeBlocks := codeBlocks st; currentCode := currentCode st;
     agentId := agentId st; agoraClientRef := agoraClientRef st |}.

Definition setTranscript (f : list TranscriptEntry -> list TranscriptEntry)
    (st : PageState) : PageState :=
  {| isConnected := isConnected st; isMicActive := isMicActive st;
     isGeneratingCode := isGeneratingCode st; transcript := f (transcript st);
     codeBlocks := codeBlocks st; currentCode := currentCode st;
     agentId := agentId st; agoraClientRef := agoraClientRef st |}.

Definition setCodeBlocks (f : list CodeBlock -> list CodeBlock)
    (st : PageState) : PageState :=
  {| isConnected := isConnected st; isMicActive := isMicActive st;
     isGeneratingCode := isGeneratingCode st; transcript := transcript st;
     codeBlocks := f (codeBlocks st); currentCode := currentCode st;
     agentId := agentId st; agoraClientRef := agoraClientRef st |}.

Definition setCurrentCode (code : jsstring) (st : PageState) : PageState :=
  {| isConnected := isConnected st; isMicActive := isMicActive st;
     isGeneratingCode := isGeneratingCode st; transcript := transcript st;
     codeBlocks := codeBlocks st; currentCode := code;
     agentId := agentId st; agoraClientRef := agoraClientRef st |}.

Definition clearClientRef (st : PageState) : PageState :=
  {| isConnected := isConnected st; isMicActive := isMicActive st;
     isGeneratingCode := isGeneratingCode st; transcript := transcript st;
     codeBlocks := codeBlocks st; currentCode := currentCode st;
     agentId := agentId st; agoraClientRef := None |}.

Definition nonempty (s : jsstring) : bool :=
  match s with [] => false | _ :: _ => true end.

(** The body of [codes.forEach]: append a block, point at it. *)
Definition commit (now : N) (st : PageState) (code : jsstring) : PageState :=
  setCurrentCode code
    (setCodeBlocks
       (fun prev => prev ++ [{| html := code; block_timestamp := now |}]) st).

(** The callback the page passes to [setTranscriptionCallback].  [now]
    is the reading of the clock, [new Date()]. *)
Definition transcriptionCallback (now : N) (message : TranscriptionMessage)
    (st : PageState) : PageState :=
  let r := parseAgentResponse (text message) in
  let hasLenticularOpenBracket := includes (text message) [OPEN] in
  let st1 :=
    match type message with
    | agent =>
        if hasLenticularOpenBracket then
          if negb (isFinal message) then setIsGeneratingCode true st
          else setIsGeneratingCode false st
        else st
    | user => st
    end in
  let st2 :=
    if nonempty (spokenText r) && isFinal message then
      setTranscript
        (fun prev => prev ++ [{| entry_type := type message;
                                 entry_text := spokenText r;
                                 entry_timestamp := now |}]) st1
    else st1 in
  if (0 <? length (codes r))%nat && isFinal message then
    foldl (commit now) st2 (codes r)
  else st2.

(** What the network does to the two awaited calls of
    [handleDisconnect]: each may reject. *)
Record Network := {
  leave_agent_rejects : bool;
  client_disconnect_rejects : bool
}.

Inductive Completion := Resolved | Rejected.

(** [handleDisconnect].  A rejected [await] leaves the function at that
    point, nothing after it runs. *)
Definition handleDisconnect (net : Network) (st : PageState)
  : PageState * Completion :=
  let agent_running :=
    match agentId st with Some id => nonempty id | None => false end in
  if agent_running && leave_agent_rejects net then (st, Rejected)
  else
    let after_client :=
      match agoraClientRef st with
      | Some _ =>
          if client_disconnect_rejects net then None
          else Some (clearClientRef st)
      | None => Some st
      end in
    match after_client with
    | None => (st, Rejected)
    | Some st' =>
        (setTranscript (fun _ => [])
           (setIsMicActive false (setIsConnected false st')), Resolved)
    end.

End Page.

(** ** The RTM message listener of [agora-client.ts] *)

Module Rtm.

Import Message.

(** JavaScript values as the listener meets them: what [JSON.parse]
    returns, or what the SDK delivers.  Numbers are IEEE 754 doubles. *)
#[warnings="-register-all"]
Inductive jsval :=
| JUndefined
| JNull
| JBool (b : bool)
| JNumber (x : float)
| JString (s : jsstring)
| JArray (items : list jsval)
| JObject (fields : gmap jsstring jsval).

(** ToBoolean. *)
Definition truthy (v : jsval) : bool :=
  match v with
  | JUndefined | JNull => false
  | JBool b => b
  | JNumber x => negb (PrimFloat.eqb x 0 || negb (PrimFloat.eqb x x))
  | JString s => match s with [] => false | _ :: _ => true end
  | JArray _ | JObject _ => true
  end.

(** [v === w] where [w] is a primitive, as in every comparison of the
    listener: an object or an array is identical to no primitive. *)
Definition strict_eq (v w : jsval) : bool :=
  match v, w with
  | JUndefined, JUndefined => true
  | JNull, JNull => true
  | JBool a, JBool b => Bool.eqb a b
  | JNumber x, JNumber y => PrimFloat.eqb x y
  | JString s, JString t => JsString.eqb s t
  | _, _ => false
  end.

Inductive exn := TypeError | SyntaxError | CallbackError.

Definition nullish (v : jsval) : bool :=
  match v with
  | JUndefined | JNull => true
  | _ => false
  end.

(** The value of [v.k] when [v] is neither [null] nor [undefined].  The
    listener only reads names that are no property of a string, number,
    boolean or array, so only objects hold them. *)
Definition field (v : jsval) (k : string) : jsval :=
  match v with
  | JObject o => default JUndefined (o !! lit k)
  | _ => JUndefined
  end.

(** Property access [v.k]: a [TypeError] on [null] and [undefined]. *)
Definition get (v : jsval) (k : string) : exn + jsval :=
  if nullish v then inl TypeError else inr (field v k).

(** [a || b] on values.  Every operand in the listener is a property
    read or a literal, so the order of evaluation is not observable. *)
Definition or_else (a b : jsval) : jsval := if truthy a then a else b.

Inductive LogLine :=
| LogRtmMessage            (* console.log("RTM MESSAGE:", ...) *)
| LogParsedData            (* console.log("Parsed transcription data:", data) *)
| LogTranscription (isAgent isFinal : bool)
| LogObjectType
| LogTurnStatus
| LogPassing (isFinal : bool)
| ErrFailedToParse.        (* console.error("Failed to parse RTM message:") *)

(** What the listener acts on: the console, the calls made to the
    transcription callback, and the state [Σ] the callback owns. *)
Record World (Σ : Type) := mkWorld {
  console : list LogLine;
  calls : list TranscriptionMessage;
  ui : Σ
}.
Arguments mkWorld {Σ}.
Arguments console {Σ}.
Arguments calls {Σ}.
Arguments ui {Σ}.

(** Computations that change the world and either return or throw. *)
Definition M (Σ A : Type) : Type := World Σ -> World Σ * (exn + A).

Definition ret {Σ A} (a : A) : M Σ A := fun w => (w, inr a).

Definition bind {Σ A B} (m : M Σ A) (k : A -> M Σ B) : M Σ B :=
  fun w => match m w with
           | (w', inr a) => k a w'
           | (w', inl e) => (w', inl e)
           end.

Definition throw {Σ A} (e : exn) : M Σ A := fun w => (w, inl e).

Definition lift {Σ A} (r : exn + A) : M Σ A := fun w => (w, r).

(** [try { m } catch (err) { h err }]. *)
Definition try_catch {Σ A} (m : M Σ A) (h : exn -> M Σ A) : M Σ A :=
  fun w => match m w with
           | (w', inl e) => h e w'
           | r => r
           end.

Definition log {Σ} (l : LogLine) : M Σ unit :=
  fun w => (mkWorld (console w ++ [l]) (calls w) (ui w), inr tt).

#[export] Instance M_ret {Σ} : MRet (M Σ) := @ret Σ.
#[export] Instance M_bind {Σ} : MBind (M Σ) := fun A B k m => bind m k.

(** An event of the ["message"] listener. *)
Record RtmEvent := {
  channelName : jsval;
  message : jsval
}.

Section Listener.

Context {Σ : Type}.

(** [JSON.parse] applied to a value; [None] when it throws. *)
Variable JSON_parse : jsval -> option jsval.

(** [this.channel]. *)
Variable channel : jsstring.

(** [this.onTranscription]: [None] for [null]; a callback changes the
    state it owns and may throw. *)
Variable onTranscription : option (TranscriptionMessage -> Σ -> Σ * option exn).

(** [Date.now()]. *)
Variable now : N.

Definition parse (v : jsval) : exn + jsval :=
  match JSON_parse v with
  | Some data => inr data
  | None => inl SyntaxError
  end.

(** The three message formats of the listener.  Nothing here touches
    the console or the callback. *)
Definition parse_message (message : jsval) : exn + jsval :=
  match message with
  | JString _ => parse message
  | _ =>
      match get message "customType" with
      | inl e => inl e
      | inr customType =>
          if strict_eq customType (JString (lit "text")) then
            parse (or_else (field message "stringData") (JString (lit "{}")))
          else inr message
      end
  end.

(** The event is tagged with another channel than [this.channel]. *)
Definition foreign (event : RtmEvent) : bool :=
  truthy (channelName event)
  && negb (strict_eq (channelName event) (JString channel)).

Definition is_transcription (data : jsval) : bool :=
  strict_eq (field data "object") (JString (lit "assistant.transcription"))
  || strict_eq (field data "object") (JString (lit "user.transcription"))
  || truthy (field data "words")
  || truthy (field data "text").

(** [data.text || data.words || data.transcription || ""]. *)
Definition extracted_text (data : jsval) : jsval :=
  or_else (field data "text")
    (or_else (field data "words")
       (or_else (field data "transcription") (JString []))).

(** [data.turn_status === 1 || data.final === true]. *)
Definition finality (data : jsval) : bool :=
  strict_eq (field data "turn_status") (JNumber 1)
  || strict_eq (field data "final") (JBool true).

Definition fragment (data : jsval) (s : jsstring) : TranscriptionMessage :=
  {| type := if strict_eq (field data "object")
                  (JString (lit "assistant.transcription"))
             then agent else user;
     text := s;
     isFinal := finality data;
     timestamp := now |}.

Definition invoke (cb : TranscriptionMessage -> Σ -> Σ * option exn)
    (msg : TranscriptionMessage) : M Σ unit :=
  fun w =>
    let '(ui', r) := cb msg (ui w) in
    (mkWorld (console w) (calls w ++ [msg]) ui',
     match r with Some e => inl e | None => inr tt end).

(** The part of the listener that follows the parsing of the message.
    The first property read throws on [null] and [undefined]; after it
    every read is that of [field]. *)
Definition handle_data (data : jsval) : M Σ unit :=
  _ ← lift (get data "object");
  if is_transcription data then
    let isAgent :=
      strict_eq (field data "object")
        (JString (lit "assistant.transcription")) in
    match extracted_text data with
    | JString s =>
        (* [text.substring(0, 100)] is evaluated, then logged *)
        log (LogTranscription isAgent (finality data));;
        log LogObjectType;;
        log LogTurnStatus;;
        match s, onTranscription with
        | _ :: _, Some cb =>          (* [text && this.onTranscription] *)
            log (LogPassing (finality data));;
            invoke cb (fragment data s)
        | _, _ => ret tt
        end
    | _ => throw TypeError   (* [text.substring] is not a function *)
    end
  else ret tt.

(** The body of the [try] block. *)
Definition listener_body (event : RtmEvent) : M Σ unit :=
  if foreign event then ret tt
  else
    data ← lift (parse_message (message event));
    log LogParsedData;;
    handle_data data.

(** The listener registered with [addEventListener("message", ...)].
    Its first statement, outside the [try] block, logs the event with
    [JSON.stringify], which does not throw on an event made of the
    values of [jsval]. *)
Definition onMessage (event : RtmEvent) : M Σ unit :=
  log LogRtmMessage;;
  try_catch (listener_body event) (fun _ => log ErrFailedToParse).

End Listener.

End Rtm.

(** ** The listener as the SDK calls it *)

Module Delivery.

Import Message Rtm.

(** What the SDK hands to the listener: the event as far as the
    listener reads it, and whether [JSON.stringify(event, null, 2)]
    returns on it.  [JSON.stringify] throws a [TypeError] on an object
    that holds itself and on a [BigInt], which no value of [jsval]
    is. *)
Record Delivered := {
  event_of : RtmEvent;
  stringifies : bool
}.

(** The whole listener.  Its first line sits outside the [try] block,
    and the argument of [console.log] is evaluated before anything is
    logged: when [JSON.stringify] throws, the listener throws. *)
Definition listener {Σ} (JSON_parse : jsval -> option jsval)
    (channel : jsstring)
    (onTranscription : option (TranscriptionMessage -> Σ -> Σ * option exn))
    (now : N) (d : Delivered) : M Σ unit :=
  if stringifies d then
    onMessage JSON_parse channel onTranscription now (event_of d)
  else throw TypeError.

End Delivery.

(** ** The speech of a text *)

Module Speech.

(** What the decomposition of a text classifies as speech, in one
    piece and not yet trimmed. *)
Definition speech (text : jsstring) : jsstring := speech_of (spans text).

End Speech.
Export Speech.

(** ** The version selector of the page *)

Module Versions.

Import Page.

(** [codeBlocks.findIndex((b) => b.html === currentCode)], the value
    of the selector; [None] stands for [-1]. *)
Fixpoint findIndex (code : jsstring) (blocks : list CodeBlock) : option nat :=
  match blocks with
  | [] => None
  | b :: blocks' =>
      if JsString.eqb (html b) code then Some O
      else match findIndex code blocks' with
           | Some i => Some (S i)
           | None => None
           end
  end.

Definition selected (st : PageState) : option nat :=
  findIndex (currentCode st) (codeBlocks st).

(** The [onChange] handler, on the index the chosen option carries:
    [setCurrentCode(codeBlocks[idx].html)].  Reading [html] off a
    missing block throws; [None] stands for the [TypeError]. *)
Definition onChange (idx : nat) (st : PageState) : option PageState :=
  match codeBlocks st !! idx with
  | Some b => Some (setCurrentCode (html b) st)
  | None => None
  end.

End Versions.

(** ** The client object of [agora-client.ts] *)

Module Client.

(** The SDK objects, as far as the methods of the class act on them. *)
Record RtcClient := { joined : bool }.

Record RtmClient := {
  loggedIn : bool;
  subscribed : bool;
  listening : bool          (* the ["message"] listener is registered *)
}.

(** [IMicrophoneAudioTrack]: its [enabled] flag, which [setEnabled]
    sets.  A track that is stopped and closed is dropped. *)
Record AudioTrack := { enabled : bool }.

(** The fields of [AgoraConversationalClient] the methods write. *)
Record ClientState := {
  client : option RtcClient;
  rtmClient : option RtmClient;
  localAudioTrack : option AudioTrack
}.

(** The constructor leaves the three handles [null]. *)
Definition constructed : ClientState :=
  {| client := None; rtmClient := None; localAudioTrack := None |}.

(** What the SDK answers to the calls of one method: each awaited call
    resolves ([true]) or rejects, [new RTM] returns or throws. *)
Record Sdk := {
  join_ok : bool;
  leave_ok : bool;
  publish_ok : bool;
  createMicrophoneAudioTrack_ok : bool;
  setEnabled_ok : bool;
  rtm_new_ok : bool;
  login_ok : bool;
  subscribe_ok : bool;
  unsubscribe_ok : bool;
  logout_ok : bool
}.

Definition set_client (c : option RtcClient) (st : ClientState) :=
  {| client := c; rtmClient := rtmClient st;
     localAudioTrack := localAudioTrack st |}.

Definition set_rtmClient (r : option RtmClient) (st : ClientState) :=
  {| client := client st; rtmClient := r;
     localAudioTrack := localAudioTrack st |}.

Definition set_localAudioTrack (t : option AudioTrack) (st : ClientState) :=
  {| client := client st; rtmClient := rtmClient st;
     localAudioTrack := t |}.

(** [initializeRTM].  Everything sits in one [try] block whose [catch]
    only logs: the method always resolves.  A failed [login] or
    [subscribe] is rethrown by the inner [catch] and stops there. *)
Definition initializeRTM (sdk : Sdk) (st : ClientState) : ClientState :=
  if negb (rtm_new_ok sdk) then st
  else
    let fresh := {| loggedIn := false; subscribed := false;
                    listening := false |} in
    if negb (login_ok sdk) then set_rtmClient (Some fresh) st
    else if negb (subscribe_ok sdk) then
      set_rtmClient (Some {| loggedIn := true; subscribed := false;
                             listening := false |}) st
    else
      set_rtmClient (Some {| loggedIn := true; subscribed := true;
                             listening := true |}) st.

(** [initialize]: the RTC client is created and stored, then joined. *)
Definition initialize (sdk : Sdk) (st : ClientState)
  : ClientState * Page.Completion :=
  let st1 := set_client (Some {| joined := false |}) st in
  if negb (join_ok sdk) then (st1, Page.Rejected)
  else
    (initializeRTM sdk (set_client (Some {| joined := true |}) st1),
     Page.Resolved).

(** [startMicrophone]: the track is stored as soon as it is created,
    and a track just created is enabled; [this.client!.publish] throws
    when there is no client. *)
Definition startMicrophone (sdk : Sdk) (st : ClientState)
  : ClientState * Page.Completion :=
  if negb (createMicrophoneAudioTrack_ok sdk) then (st, Page.Rejected)
  else
    let st1 := set_localAudioTrack (Some {| enabled := true |}) st in
    match client st1 with
    | None => (st1, Page.Rejected)
    | Some _ =>
        if publish_ok sdk then (st1, Page.Resolved) else (st1, Page.Rejected)
    end.

(** [stopMicrophone]: no awaited call, it always resolves. *)
Definition stopMicrophone (st : ClientState) : ClientState :=
  match localAudioTrack st with
  | Some _ => set_localAudioTrack None st
  | None => st
  end.


Definition isConnected (st : ClientState) : bool :=
  match client st with Some _ => true | None => false end.

Definition isMicActive (st : ClientState) : bool :=
  match localAudioTrack st with Some _ => true | None => false end.

(** [setMuted(muted)]: [setEnabled(!muted)] on the track, if any. *)
Definition setMuted (sdk : Sdk) (muted : bool) (st : ClientState)
  : ClientState * Page.Completion :=
  match localAudioTrack st with
  | Some _ =>
      if setEnabled_ok sdk then
        (set_localAudioTrack (Some {| enabled := negb muted |}) st,
         Page.Resolved)
      else (st, Page.Rejected)
  | None => (st, Page.Resolved)
  end.

Definition isMuted (st : ClientState) : bool :=
  match localAudioTrack st with
  | None => true
  | Some t => negb (enabled t)
  end.

End Client.

(** ** [formatHTML] *)

Module Format.

Definition LT : char := 60.
Definition GT : char := 62.

Fixpoint takeWhile (p : char -> bool) (s : jsstring) : jsstring :=
  match s with
  | [] => []
  | c :: s' => if p c then c :: takeWhile p s' else []
  end.

Definition not_gt (c : char) : bool := negb (c =? GT).

(** A match of [<[^>]+>] whose [<] was just read: the longest run of
    code units other than [>], not empty, and the [>] behind it.  A
    shorter run is never followed by [>], so there is nothing to
    backtrack to. *)
Definition match_tag (s : jsstring) : option (jsstring * jsstring) :=
  match takeWhile not_gt s, dropWhile not_gt s with
  | (_ :: _) as body, _ :: rest => Some (body, rest)
  | _, _ => None
  end.

(** [html.split(/(<[^>]+>)/g)]: the text before every match, the match
    itself (the capture group), and the text behind the last match.
    [cur] is the text read since the last match. *)
Fixpoint split_from (fuel : nat) (cur s : jsstring) : list jsstring :=
  match fuel with
  | O => [cur ++ s]
  | S fuel' =>
      match s with
      | [] => [cur]
      | c :: s' =>
          if c =? LT then
            match match_tag s' with
            | Some (body, rest) =>
                cur :: (LT :: body ++ [GT]) :: split_from fuel' [] rest
            | None => split_from fuel' (cur ++ [c]) s'
            end
          else split_from fuel' (cur ++ [c]) s'
      end
  end.

Definition split (html : jsstring) : list jsstring :=
  split_from (length html) [] html.

Definition tab : jsstring := lit "  ".

(** [tab.repeat(n)]. *)
Definition repeat_tab (n : nat) : jsstring := mjoin (replicate n tab).

(** [token.match(/<(br|hr|img|input|meta|link)/i)] finds something.
    The names are ASCII, and no code unit beyond ASCII folds to an
    ASCII letter under the [i] flag. *)
Definition is_void (token : jsstring) : bool :=
  let t := lower <$> token in
  includes t (lit "<br") || includes t (lit "<hr") || includes t (lit "<img")
  || includes t (lit "<input") || includes t (lit "<meta")
  || includes t (lit "<link").

Definition emit (formatted : jsstring) (indent : nat) (piece : jsstring)
  : jsstring :=
  formatted ++ NEWLINE :: repeat_tab indent ++ piece.

(** The callback of [forEach], on [formatted] and [indent].
    [Math.max(0, indent - 1)] is the predecessor on [nat]. *)
Definition format_step (acc : jsstring * nat) (token : jsstring)
  : jsstring * nat :=
  let '(formatted, indent) := acc in
  match trim token with
  | [] => acc                                   (* [!token.trim()] *)
  | _ :: _ =>
      if startsWith token (lit "</") then
        (emit formatted (indent - 1) token, (indent - 1)%nat)
      else if startsWith token (lit "<") && negb (endsWith token (lit "/>"))
      then
        (emit formatted indent token,
         if is_void token then indent else S indent)
      else
        (emit formatted indent (trim token), indent)
  end.

Definition formatHTML (html : jsstring) : jsstring :=
  trim (foldl format_step ([], O) (split html)).1.

(** A string without its white space. *)
Definition squeeze (s : jsstring) : jsstring :=
  filter (fun c => is_ws c = false) s.

End Format.

(** ** [exportProject]: the style sheet and the script of a page *)

Module ExportProject.

(** The first place where [pat] occurs in [s]: what stands before it
    and what stands behind it. *)
Fixpoint cut (s pat : jsstring) : option (jsstring * jsstring) :=
  if startsWith s pat then Some ([], drop (length pat) s)
  else match s with
       | [] => None
       | c :: s' =>
           match cut s' pat with
           | Some (before, behind) => Some (c :: before, behind)
           | None => None
           end
       end.

(** [html.match(/<open>([\s\S]*?)<\/close>/)], then [m ? m[1] : ""].
    The match starts at the first opening tag that a closing tag
    follows, and the lazy group ends at the first closing tag behind
    it; when no closing tag follows the first opening tag, none
    follows a later one. *)
Definition capture (opening closing html : jsstring) : jsstring :=
  match cut html opening with
  | Some (_, behind) =>
      match cut behind closing with
      | Some (inner, _) => inner
      | None => []
      end
  | None => []
  end.

Definition css_of (html : jsstring) : jsstring :=
  capture (lit "<style>") (lit "</style>") html.

Definition js_of (html : jsstring) : jsstring :=
  capture (lit "<script>") (lit "</script>") html.

End ExportProject.

(** ** Sample inputs *)

Module Samples.

Import Message Page Rtm.

(** A stand-in for [JSON.parse] that knows one document. *)
Definition sample_parse (v : jsval) : option jsval :=
  match v with
  | JString s => if JsString.eqb s (lit "{}") then Some (JObject ∅) else None
  | _ => None
  end.

(** The page callback as the listener sees it; it does not throw. *)
Definition page_callback (now : N)
  : option (TranscriptionMessage -> PageState -> PageState * option exn) :=
  Some (fun msg st => (transcriptionCallback now msg st, None)).

Definition sample_page : PageState :=
  {| isConnected := true; isMicActive := true; isGeneratingCode := false;
     transcript := []; codeBlocks := []; currentCode := [];
     agentId := Some (lit "a1"); agoraClientRef := Some (lit "room") |}.

Definition sample_world : World PageState := mkWorld [] [] sample_page.

Definition transcription_object (text : jsval) : jsval :=
  JObject (<[lit "object" := JString (lit "assistant.transcription")]>
          (<[lit "text" := text]>
          (<[lit "turn_status" := JNumber 1]> ∅))).

(** The agent turn of the walk-through. *)
Definition button_text : jsstring :=
  lit "Here's a button "
  ++ OPEN :: lit "<!DOCTYPE html><html><body>Hi</body></html>"
  ++ CLOSE :: lit " enjoy.".

End Samples.

(** ** More sample inputs *)

Module MoreSamples.

Import Message Page Rtm Samples.

(** An interim agent message: [turn_status] is 0. *)
Definition interim_object (text : jsval) : jsval :=
  JObject (<[lit "object" := JString (lit "assistant.transcription")]>
          (<[lit "text" := text]>
          (<[lit "turn_status" := JNumber 0]> ∅))).

(** A message with a [transcription] field and nothing else. *)
Definition transcription_only : jsval :=
  JObject (<[lit "transcription" := JString (lit "hi")]> ∅).

Definition untagged (data : jsval) : RtmEvent :=
  {| channelName := JUndefined; message := data |}.

Definition hi_fragment : TranscriptionMessage :=
  {| type := agent; text := lit "hi"; isFinal := true; timestamp := 8 |}.

End MoreSamples.

(** ** Facts on the string operations *)

Section StringFacts.

Implicit Types (s t pat r k : jsstring) (c p : char).

Lemma startsWith_app pat r : startsWith (pat ++ r) pat = true.
Proof. induction pat as [|p pat IH]; simpl; [done|]. by rewrite N.eqb_refl. Qed.

Lemma startsWith_inv s pat :
  startsWith s pat = true -> exists r, s = pat ++ r.
Proof.
  revert s; induction pat as [|p pat IH]; intros s H; simpl in *.
  - by exists s.
  - destruct s as [|c s]; [done|].
    apply andb_true_iff in H as [Hc Hs]. apply N.eqb_eq in Hc as ->.
    destruct (IH _ Hs) as [r ->]. by exists r.
Qed.

Lemma startsWith_head_ne s c p pat :
  c <> p -> startsWith (c :: s) (p :: pat) = false.
Proof. intros H. simpl. by apply N.eqb_neq in H as ->. Qed.

Lemma includes_inv s pat :
  includes s pat = true -> exists a b, s = a ++ pat ++ b.
Proof.
  induction s as [|c s IH]; simpl; intros H.
  - rewrite orb_false_r in H. apply startsWith_inv in H as [r ->].
    by exists [], r.
  - apply orb_true_iff in H as [H|H].
    + apply startsWith_inv in H as [r ->]. by exists [], r.
    + destruct (IH H) as (a & b & ->). by exists (c :: a), b.
Qed.

Lemma includes_here s pat : startsWith s pat = true -> includes s pat = true.
Proof. destruct s; simpl; by intros ->. Qed.

Lemma includes_intro a pat b : includes (a ++ pat ++ b) pat = true.
Proof.
  induction a as [|c a IH]; simpl.
  - apply includes_here, startsWith_app.
  - by rewrite IH, orb_true_r.
Qed.

(** Removing a prefix that does not hold the first code unit of the
    pattern does not change whether the pattern occurs. *)
Lemma includes_drop_prefix r k p pat :
  Forall (fun c => c <> p) r ->
  includes (r ++ k) (p :: pat) = includes k (p :: pat).
Proof.
  induction 1 as [|c r Hc _ IH]; [done|].
  change (includes ((c :: r) ++ k) (p :: pat))
    with (startsWith (c :: r ++ k) (p :: pat) || includes (r ++ k) (p :: pat)).
  by rewrite startsWith_head_ne, IH.
Qed.

Lemma startsWith_cut k r pat :
  pat <> [] -> Forall (fun c => c ∉ pat) r ->
  startsWith (k ++ r) pat = true -> startsWith k pat = true.
Proof.
  intros Hne Hr. revert pat Hne Hr.
  induction k as [|c k IH]; intros pat Hne Hr H.
  - destruct pat as [|p pat]; [done|]. simpl in H.
    destruct r as [|c r]; [done|].
    apply andb_true_iff in H as [Hc _]. apply N.eqb_eq in Hc as ->.
    apply Forall_cons in Hr as [Hr _]. destruct Hr. by left.
  - destruct pat as [|p pat]; [done|]. simpl in *.
    apply andb_true_iff in H as [Hc H]. rewrite Hc. simpl.
    destruct pat as [|q pat]; [by destruct k|].
    apply IH; [done| |done].
    eapply Forall_impl; [exact Hr|]. intros x Hx Hin. apply Hx. by right.
Qed.

(** Removing a suffix made of code units foreign to the pattern does not
    change whether the pattern occurs. *)
Lemma includes_drop_suffix k r pat :
  pat <> [] -> Forall (fun c => c ∉ pat) r ->
  includes (k ++ r) pat = includes k pat.
Proof.
  intros Hne Hr. induction k as [|c k IH].
  - destruct pat as [|p pat]; [done|]. simpl.
    induction Hr as [|c r Hc _ IHr]; [done|].
    change (includes (c :: r) (p :: pat))
      with (startsWith (c :: r) (p :: pat) || includes r (p :: pat)).
    rewrite startsWith_head_ne; [exact IHr|].
    intros ->. apply Hc. by left.
  - change (includes ((c :: k) ++ r) pat)
      with (startsWith ((c :: k) ++ r) pat || includes (k ++ r) pat).
    change (includes (c :: k) pat)
      with (startsWith (c :: k) pat || includes k pat).
    rewrite IH.
    destruct (startsWith ((c :: k) ++ r) pat) eqn:E.
    + by rewrite (startsWith_cut _ _ _ Hne Hr E).
    + destruct (includes k pat); [by rewrite !orb_true_r|].
      rewrite !orb_false_r. symmetry. apply not_true_is_false. intros E'.
      apply startsWith_inv in E' as [t E']. rewrite E' in E.
      by rewrite <- app_assoc, startsWith_app in E.
Qed.

Lemma dropWhile_split (f : char -> bool) s :
  exists r, s = r ++ dropWhile f s /\ Forall (fun c => f c = true) r.
Proof.
  induction s as [|c s (r & E & Hr)]; simpl.
  - by exists [].
  - destruct (f c) eqn:Hc.
    + exists (c :: r). split; [by rewrite E at 1|by constructor].
    + by exists [].
Qed.

Lemma dropWhile_stop (f : char -> bool) a c s :
  f c = false -> exists a', dropWhile f (a ++ c :: s) = a' ++ c :: s.
Proof.
  intros Hc. induction a as [|x a [a' IH]]; simpl.
  - rewrite Hc. by exists [].
  - destruct (f x); [by exists a'|by exists (x :: a)].
Qed.

Lemma trim_split s :
  exists a b, s = a ++ trim s ++ b
    /\ Forall (fun c => is_ws c = true) a /\ Forall (fun c => is_ws c = true) b.
Proof.
  unfold trim, trimEnd, trimStart.
  destruct (dropWhile_split is_ws s) as (a & Ea & Ha).
  destruct (dropWhile_split is_ws (reverse (dropWhile is_ws s))) as (b & Eb & Hb).
  exists a, (reverse b). split; [|split; [done|by apply Forall_reverse]].
  rewrite Ea at 1. f_equal.
  rewrite <- reverse_app, <- Eb. by rewrite reverse_involutive.
Qed.

(** A piece that starts and ends with code units that are not white
    space survives [trim] wherever it stands in the string. *)
Lemma trim_keeps a c m d b :
  is_ws c = false -> is_ws d = false ->
  exists a' b', trim (a ++ (c :: m ++ [d]) ++ b) = a' ++ (c :: m ++ [d]) ++ b'.
Proof.
  intros Hc Hd. unfold trim, trimEnd, trimStart.
  destruct (dropWhile_stop is_ws a c (m ++ [d] ++ b) Hc) as [a' Ea].
  replace (a ++ (c :: m ++ [d]) ++ b) with (a ++ c :: m ++ [d] ++ b)
    by (simpl; by rewrite <- !app_assoc).
  rewrite Ea.
  replace (a' ++ c :: m ++ [d] ++ b) with ((a' ++ c :: m) ++ d :: b)
    by (by rewrite <- app_assoc).
  rewrite reverse_app, reverse_cons, <- app_assoc. simpl.
  destruct (dropWhile_stop is_ws (reverse b) d (reverse (a' ++ c :: m)) Hd)
    as [b' Eb].
  rewrite Eb. exists a', (reverse b').
  rewrite reverse_app, reverse_cons, reverse_involutive.
  by rewrite <- !app_assoc.
Qed.

End StringFacts.

(** ** Facts on matches and on the cleaning of a match *)

Section RegionFacts.

Implicit Types (s t body rest m : jsstring) (c : char).

Lemma find_close_Some s body rest :
  find_close s = Some (body, rest) ->
  s = body ++ CLOSE :: rest /\ CLOSE ∉ body.
Proof.
  revert body rest. induction s as [|c s IH]; intros body rest H; [done|].
  simpl in H. destruct (N.eqb_spec c CLOSE) as [->|Hc].
  - injection H as <- <-. split; [done|]. apply not_elem_of_nil.
  - destruct (find_close s) as [[b r]|]; [|done].
    injection H as <- <-. destruct (IH b r eq_refl) as [-> Hb].
    split; [done|]. by apply not_elem_of_cons.
Qed.

Lemma find_close_None s : find_close s = None -> CLOSE ∉ s.
Proof.
  induction s as [|c s IH]; intros H; [apply not_elem_of_nil|].
  simpl in H. destruct (N.eqb_spec c CLOSE) as [->|Hc]; [done|].
  destruct (find_close s) as [[b r]|]; [done|].
  apply not_elem_of_cons. split; [done|by apply IH].
Qed.

Lemma find_close_absent s : CLOSE ∉ s -> find_close s = None.
Proof.
  induction s as [|c s IH]; intros H; [done|].
  apply not_elem_of_cons in H as [Hc Hs]. simpl.
  destruct (N.eqb_spec c CLOSE) as [->|_]; [done|]. by rewrite IH.
Qed.

Lemma find_close_shorter s body rest :
  find_close s = Some (body, rest) -> (length rest < length s)%nat.
Proof.
  intros H. apply find_close_Some in H as [-> _].
  rewrite length_app. simpl. lia.
Qed.

(** The first close bracket of a string is where it is. *)
Lemma first_close_unique a b s t :
  CLOSE ∉ a -> CLOSE ∉ b -> a ++ CLOSE :: s = b ++ CLOSE :: t ->
  a = b /\ s = t.
Proof.
  revert b. induction a as [|x a IH]; intros [|y b] Ha Hb E; simpl in E.
  - by injection E as ->.
  - injection E as <- _. exfalso. apply Hb. by left.
  - injection E as -> _. exfalso. apply Ha. by left.
  - injection E as -> E.
    apply not_elem_of_cons in Ha as [_ Ha], Hb as [_ Hb].
    destruct (IH b Ha Hb E) as [-> ->]. done.
Qed.

Lemma slice_region body : slice_1_m1 (OPEN :: body ++ [CLOSE]) = body.
Proof.
  unfold slice_1_m1. simpl. rewrite length_app. simpl.
  replace (length body + 1 - 0 - 1)%nat with (length body) by lia.
  by rewrite drop_0, take_app_length.
Qed.

Lemma word_not_lt c : is_word c = true -> c <> 60.
Proof. by intros H ->. Qed.

Lemma ws_not_lt c : is_ws c = true -> c <> 60.
Proof. by intros H ->. Qed.

(** What [strip_open_fence] removes holds no [<]. *)
Lemma strip_open_fence_split s :
  exists r, s = r ++ strip_open_fence s /\ Forall (fun c => c <> 60) r.
Proof.
  unfold strip_open_fence. destruct (startsWith s fence) eqn:E.
  - apply startsWith_inv in E as [t ->].
    change (drop 3 (fence ++ t)) with t.
    destruct (dropWhile_split is_word t) as (w & Ew & Hw).
    assert (Hw' : Forall (fun c => c <> 60) (fence ++ w)).
    { apply Forall_app. split; [by repeat constructor|].
      eapply Forall_impl; [exact Hw|]. apply word_not_lt. }
    destruct (dropWhile is_word t) as [|c d].
    + exists (fence ++ w). split; [|done].
      rewrite Ew at 1. by rewrite app_assoc.
    + destruct (N.eqb_spec c NEWLINE) as [->|_].
      * exists ((fence ++ w) ++ [NEWLINE]). split.
        -- rewrite Ew at 1. by rewrite <- !app_assoc.
        -- apply Forall_app. split; [done|by repeat constructor].
      * exists (fence ++ w). split; [|done].
        rewrite Ew at 1. by rewrite app_assoc.
  - by exists [].
Qed.

(** What [strip_close_fence] removes is a fence. *)
Lemma strip_close_fence_split s :
  exists r, s = strip_close_fence s ++ r /\ Forall (fun c => c = BACKTICK) r.
Proof.
  unfold strip_close_fence, endsWith. destruct (startsWith _ _) eqn:E.
  - apply startsWith_inv in E as [t E].
    apply (f_equal reverse) in E.
    rewrite reverse_involutive, reverse_app, reverse_involutive in E.
    subst s. exists fence. split; [|by repeat constructor].
    rewrite length_app. simpl.
    replace (length (reverse t) + 3 - 3)%nat with (length (reverse t)) by lia.
    by rewrite take_app_length.
  - exists []. by rewrite app_nil_r.
Qed.

Lemma marker_html_foreign c :
  is_ws c = true \/ c = BACKTICK -> c ∉ lit "<html".
Proof.
  intros H Hin. vm_compute in Hin.
  repeat (apply elem_of_cons in Hin as [->|Hin]; [by destruct H|]).
  by apply elem_of_nil in Hin.
Qed.

Lemma marker_doctype_foreign c :
  is_ws c = true \/ c = BACKTICK -> c ∉ lit "<!DOCTYPE".
Proof.
  intros H Hin. vm_compute in Hin.
  repeat (apply elem_of_cons in Hin as [->|Hin]; [by destruct H|]).
  by apply elem_of_nil in Hin.
Qed.

(** Cleaning keeps and adds no marker: the validation of the loop body
    is a test on the raw content between the brackets. *)
Lemma includes_cleaned body p pat :
  p = 60 ->
  (forall c, is_ws c = true \/ c = BACKTICK -> c ∉ p :: pat) ->
  includes (cleaned (OPEN :: body ++ [CLOSE])) (p :: pat)
  = includes body (p :: pat).
Proof.
  intros -> Hpat. unfold cleaned. rewrite slice_region.
  destruct (strip_open_fence_split body) as (r1 & E1 & H1).
  destruct (strip_close_fence_split (strip_open_fence body)) as (r2 & E2 & H2).
  destruct (trim_split (strip_close_fence (strip_open_fence body)))
    as (a & b & E3 & Ha & Hb).
  rewrite E1 at 2. rewrite includes_drop_prefix by done.
  rewrite E2 at 2. rewrite includes_drop_suffix; [|done|].
  2:{ eapply Forall_impl; [exact H2|]. intros c ->. apply Hpat. by right. }
  rewrite E3 at 2. rewrite includes_drop_prefix.
  2:{ eapply Forall_impl; [exact Ha|]. apply ws_not_lt. }
  rewrite includes_drop_suffix; [done|done|].
  eapply Forall_impl; [exact Hb|]. intros c Hc. apply Hpat. by left.
Qed.

Lemma isHtml_cleaned body :
  isHtml (cleaned (OPEN :: body ++ [CLOSE])) = isHtml body.
Proof.
  unfold isHtml.
  change (lit "<html") with (60 :: lit "html").
  change (lit "<!DOCTYPE") with (60 :: lit "!DOCTYPE").
  rewrite !includes_cleaned; [done|done| |done|].
  - apply marker_doctype_foreign.
  - apply marker_html_foreign.
Qed.

Lemma isHtml_spec s :
  isHtml s = true <->
  (exists a b, s = a ++ lit "<html" ++ b)
  \/ (exists a b, s = a ++ lit "<!DOCTYPE" ++ b).
Proof.
  unfold isHtml. rewrite orb_true_iff. split.
  - intros [H|H]; apply includes_inv in H; eauto.
  - intros [(a & b & ->)|(a & b & ->)]; rewrite includes_intro; eauto.
Qed.

(** A marker in the tail of a content is a marker in the content. *)
Lemma isHtml_suffix a s : isHtml s = true -> isHtml (a ++ s) = true.
Proof.
  rewrite !isHtml_spec.
  intros [(x & y & ->)|(x & y & ->)]; [left|right];
    exists (a ++ x), y; by rewrite <- app_assoc.
Qed.

End RegionFacts.

(** ** The loop of [parseAgentResponse] against the decomposition *)

Section LoopFacts.

Implicit Types (s t body rest m K : jsstring) (c : char)
  (l : list ContentSpan).

Lemma speech_of_cons c l : speech_of (speech_cons c l) = c :: speech_of l.
Proof. by destruct l as [|[]]. Qed.

Lemma payloads_of_cons c l : payloads_of (speech_cons c l) = payloads_of l.
Proof. by destruct l as [|[]]. Qed.

Lemma reassemble_cons c l : reassemble (speech_cons c l) = c :: reassemble l.
Proof. by destruct l as [|[]]. Qed.

Lemma speech_of_app t l : speech_of (speech_app t l) = t ++ speech_of l.
Proof.
  induction t as [|c t IH]; [done|].
  simpl. by rewrite speech_of_cons, IH.
Qed.

Lemma payloads_of_app t l : payloads_of (speech_app t l) = payloads_of l.
Proof.
  induction t as [|c t IH]; [done|].
  simpl. by rewrite payloads_of_cons.
Qed.

Lemma reassemble_app t l : reassemble (speech_app t l) = t ++ reassemble l.
Proof.
  induction t as [|c t IH]; [done|].
  simpl. by rewrite reassemble_cons, IH.
Qed.

(** Without a close bracket there is no match and all is speech. *)
Lemma matchAll_from_no_close fuel s :
  CLOSE ∉ s -> matchAll_from fuel s = [].
Proof.
  revert s. induction fuel as [|fuel IH]; intros [|c s] H; try done.
  apply not_elem_of_cons in H as [_ H]. simpl.
  rewrite (find_close_absent _ H), (IH _ H). by destruct (c =? OPEN).
Qed.

Lemma spans_from_no_close fuel s :
  (length s <= fuel)%nat -> CLOSE ∉ s ->
  speech_of (spans_from fuel s) = s /\ payloads_of (spans_from fuel s) = [].
Proof.
  revert s. induction fuel as [|fuel IH]; intros [|c s] Hlen H; try done.
  { simpl in Hlen. lia. }
  apply not_elem_of_cons in H as [_ H]. simpl in Hlen.
  destruct (IH s ltac:(lia) H) as [E1 E2]. simpl.
  rewrite (find_close_absent _ H).
  destruct (c =? OPEN); by rewrite speech_of_cons, payloads_of_cons, E1, E2.
Qed.

Lemma replace_here m s : replace (m ++ s) m [] = s.
Proof.
  destruct m as [|c m]; [by destruct s|].
  pose proof (startsWith_app (c :: m) s) as H.
  simpl in *. rewrite H. simpl. apply drop_app_length.
Qed.

Lemma replace_skip c s m :
  startsWith (c :: s) m = false ->
  replace (c :: s) m [] = c :: replace s m [].
Proof. intros H. cbn [replace]. by rewrite H. Qed.

Lemma stepped_over_nil : stepped_over [].
Proof. by intros body s _ _. Qed.

Lemma stepped_over_plain K c :
  c <> OPEN -> stepped_over K -> stepped_over (K ++ [c]).
Proof.
  intros Hc HK body s Hb Hh. rewrite <- !app_assoc. simpl.
  rewrite HK by done. f_equal. apply replace_skip.
  by apply startsWith_head_ne.
Qed.

(** The tail of a match that is not renderable holds no renderable
    match: the removal steps over a match that stays in the speech. *)
Lemma replace_in_kept b1 b2 q u s :
  CLOSE ∉ b1 -> CLOSE ∉ b2 -> isHtml b1 = false -> isHtml b2 = true ->
  q ++ u = OPEN :: b1 ++ [CLOSE] ->
  replace (u ++ s) (OPEN :: b2 ++ [CLOSE]) []
  = u ++ replace s (OPEN :: b2 ++ [CLOSE]) [].
Proof.
  intros H1 H2 Hh1 Hh2. revert q.
  induction u as [|x u IH]; intros q E; [done|].
  rewrite <- !app_comm_cons, replace_skip.
  { f_equal. apply (IH (q ++ [x])). by rewrite <- app_assoc. }
  apply not_true_is_false. intros Hp.
  apply startsWith_inv in Hp as [r Hp]. simpl in Hp.
  injection Hp as -> Hp.
  destruct u as [|y u _] using rev_ind.
  { apply (f_equal last) in E. change (OPEN :: b1 ++ [CLOSE])
      with ((OPEN :: b1) ++ [CLOSE]) in E. by rewrite !last_snoc in E. }
  change (OPEN :: b1 ++ [CLOSE]) with ((OPEN :: b1) ++ [CLOSE]) in E.
  change (q ++ OPEN :: u ++ [y]) with (q ++ (OPEN :: u) ++ [y]) in E.
  rewrite app_assoc in E. apply app_inj_tail in E as [E ->].
  assert (Hu : CLOSE ∉ u).
  { intros Hin. assert (Hin' : CLOSE ∈ OPEN :: b1).
    { rewrite <- E. apply elem_of_app. right. by right. }
    apply elem_of_cons in Hin' as [?|?]; done. }
  rewrite <- !app_assoc in Hp. simpl in Hp.
  apply first_close_unique in Hp as [-> _]; [|done..].
  destruct q as [|z q]; simpl in E.
  - injection E as ->. congruence.
  - injection E as -> <-.
    pose proof (isHtml_suffix (q ++ [OPEN]) b2 Hh2) as Hx.
    rewrite <- app_assoc in Hx. simpl in Hx. congruence.
Qed.

Lemma stepped_over_kept K body :
  CLOSE ∉ body -> isHtml body = false ->
  stepped_over K -> stepped_over (K ++ OPEN :: body ++ [CLOSE]).
Proof.
  intros Hb Hh HK b2 s H2 Hh2. rewrite <- !app_assoc.
  rewrite HK by done. f_equal.
  by apply (replace_in_kept body b2 []).
Qed.

(** The loop removes every renderable match where it stands: the two
    variables of the loop end as the speech and the payloads of the
    decomposition. *)
Lemma loop_spans fuel : forall s K cs,
  (length s <= fuel)%nat -> stepped_over K ->
  foldl parse_step (K ++ s, cs) (matchAll_from fuel s)
  = (K ++ speech_of (spans_from fuel s),
     cs ++ payloads_of (spans_from fuel s)).
Proof.
  induction fuel as [|fuel IH]; intros [|c s] K cs Hlen HK;
    try (simpl; by rewrite !app_nil_r).
  { simpl in Hlen. lia. }
  simpl in Hlen. cbn [matchAll_from spans_from].
  destruct (N.eqb_spec c OPEN) as [->|Hc].
  - destruct (find_close s) as [[body rest]|] eqn:Hf.
    + pose proof (find_close_shorter _ _ _ Hf) as Hr.
      apply find_close_Some in Hf as [-> Hb].
      cbn [foldl]. unfold parse_step at 2. cbn [fst snd].
      rewrite isHtml_cleaned. destruct (isHtml body) eqn:Hh.
      * replace (K ++ OPEN :: body ++ CLOSE :: rest)
          with (K ++ (OPEN :: body ++ [CLOSE]) ++ rest)
          by (simpl; by rewrite <- app_assoc).
        rewrite HK by done. rewrite replace_here.
        rewrite IH by (done || lia).
        unfold speech_of, payloads_of. simpl. by rewrite <- app_assoc.
      * replace (K ++ OPEN :: body ++ CLOSE :: rest)
          with ((K ++ OPEN :: body ++ [CLOSE]) ++ rest)
          by (rewrite <- !app_assoc; simpl; by rewrite <- ?app_assoc).
        rewrite IH; [|lia|by apply stepped_over_kept].
        rewrite speech_of_app, payloads_of_app.
        by rewrite <- !app_assoc.
    + apply find_close_None in Hf.
      rewrite matchAll_from_no_close by done.
      destruct (spans_from_no_close fuel s ltac:(lia) Hf) as [E1 E2].
      by rewrite speech_of_cons, payloads_of_cons, E1, E2, app_nil_r.
  - replace (K ++ c :: s) with ((K ++ [c]) ++ s) by (by rewrite <- app_assoc).
    rewrite IH; [|lia|by apply stepped_over_plain].
    by rewrite speech_of_cons, payloads_of_cons, <- app_assoc.
Qed.

Lemma reassemble_spans_from fuel : forall s,
  (length s <= fuel)%nat -> reassemble (spans_from fuel s) = s.
Proof.
  induction fuel as [|fuel IH]; intros [|c s] Hlen; try done.
  { simpl in Hlen. lia. }
  simpl in Hlen. cbn [spans_from].
  destruct (N.eqb_spec c OPEN) as [->|Hc].
  - destruct (find_close s) as [[body rest]|] eqn:Hf.
    + pose proof (find_close_shorter _ _ _ Hf) as Hr.
      apply find_close_Some in Hf as [-> Hb].
      destruct (isHtml _).
      * change (reassemble (?sp :: ?l)) with (span_source sp ++ reassemble l).
        rewrite IH by lia. simpl. by rewrite <- app_assoc.
      * rewrite reassemble_app, IH by lia. simpl. by rewrite <- app_assoc.
    + by rewrite reassemble_cons, IH by lia.
  - by rewrite reassemble_cons, IH by lia.
Qed.

(** More fuel than code units changes nothing. *)
Lemma matchAll_from_fuel f1 : forall f2 s,
  (length s <= f1)%nat -> (length s <= f2)%nat ->
  matchAll_from f1 s = matchAll_from f2 s.
Proof.
  induction f1 as [|f1 IH]; intros [|f2] [|c s] H1 H2; simpl in *;
    try done; try lia.
  destruct (c =? OPEN); [|apply IH; lia].
  destruct (find_close s) as [[body rest]|] eqn:Hf; [|apply IH; lia].
  apply find_close_shorter in Hf. f_equal. apply IH; lia.
Qed.

Lemma matchAll_from_enough fuel s :
  (length s <= fuel)%nat -> matchAll_from fuel s = matchAll s.
Proof. intros H. by apply matchAll_from_fuel. Qed.

Lemma find_close_first body rest :
  CLOSE ∉ body -> find_close (body ++ CLOSE :: rest) = Some (body, rest).
Proof.
  induction body as [|c body IH]; intros H; simpl.
  - done.
  - apply not_elem_of_cons in H as [Hc H].
    destruct (N.eqb_spec c CLOSE) as [->|_]; [done|]. by rewrite IH.
Qed.

(** The matches of the regular expression, read off the text: the first
    match starts at the first open bracket and ends at the first close
    bracket after it, and the search resumes behind it. *)
Lemma matchAll_first pre body rest :
  OPEN ∉ pre -> CLOSE ∉ body ->
  matchAll (pre ++ OPEN :: body ++ CLOSE :: rest)
  = (OPEN :: body ++ [CLOSE]) :: matchAll rest.
Proof.
  intros Hpre Hbody. unfold matchAll at 1.
  assert (H : forall fuel,
    (length (pre ++ OPEN :: body ++ CLOSE :: rest) <= fuel)%nat ->
    matchAll_from fuel (pre ++ OPEN :: body ++ CLOSE :: rest)
    = (OPEN :: body ++ [CLOSE]) :: matchAll rest); [|by apply H].
  induction pre as [|c pre IH]; intros [|fuel] Hlen; simpl in Hlen; try lia.
  - simpl. rewrite find_close_first by done. f_equal.
    apply matchAll_from_enough. rewrite length_app in Hlen. simpl in Hlen. lia.
  - apply not_elem_of_cons in Hpre as [Hc Hpre]. simpl.
    destruct (N.eqb_spec c OPEN) as [->|_]; [done|]. apply IH; [done|lia].
Qed.

(** The matches are bracketed regions without an inner close bracket. *)
Lemma matchAll_from_shape fuel : forall s m,
  m ∈ matchAll_from fuel s ->
  exists body, m = OPEN :: body ++ [CLOSE] /\ CLOSE ∉ body.
Proof.
  induction fuel as [|fuel IH]; intros [|c s] m Hm;
    try by apply elem_of_nil in Hm.
  cbn [matchAll_from] in Hm.
  destruct (c =? OPEN); [|by eapply IH].
  destruct (find_close s) as [[body rest]|] eqn:Hf; [|by eapply IH].
  apply find_close_Some in Hf as [-> Hb].
  apply elem_of_cons in Hm as [->|Hm]; [by exists body|by eapply IH].
Qed.

(** A match that is not renderable stands in the speech as it is. *)
Lemma kept_in_speech fuel : forall s m,
  (length s <= fuel)%nat ->
  m ∈ matchAll_from fuel s -> isHtml (cleaned m) = false ->
  exists a b, speech_of (spans_from fuel s) = a ++ m ++ b.
Proof.
  induction fuel as [|fuel IH]; intros [|c s] m Hlen Hm Hh;
    try by apply elem_of_nil in Hm.
  simpl in Hlen. cbn [matchAll_from spans_from] in *.
  destruct (N.eqb_spec c OPEN) as [->|Hc].
  - destruct (find_close s) as [[body rest]|] eqn:Hf.
    + pose proof (find_close_shorter _ _ _ Hf) as Hr.
      apply elem_of_cons in Hm as [->|Hm].
      * rewrite Hh, speech_of_app. by exists [], (speech_of (spans_from fuel rest)).
      * destruct (IH rest m ltac:(lia) Hm Hh) as (a & b & E).
        destruct (isHtml (cleaned (OPEN :: body ++ [CLOSE]))).
        -- exists a, b. exact E.
        -- rewrite speech_of_app, E.
           exists ((OPEN :: body ++ [CLOSE]) ++ a), b. by rewrite <- app_assoc.
    + destruct (IH s m ltac:(lia) Hm Hh) as (a & b & E).
      rewrite speech_of_cons, E. by exists (OPEN :: a), b.
  - destruct (IH s m ltac:(lia) Hm Hh) as (a & b & E).
    rewrite speech_of_cons, E. by exists (c :: a), b.
Qed.

(** The payloads are the cleaned renderable matches, in order. *)
Lemma loop_codes (ms : list jsstring) : forall acc,
  (foldl parse_step acc ms).2
  = acc.2 ++ (cleaned <$> filter (fun m => isHtml (cleaned m) = true) ms).
Proof.
  induction ms as [|m ms IH]; intros acc; simpl; [by rewrite app_nil_r|].
  rewrite IH. unfold parse_step. rewrite filter_cons.
  destruct (isHtml (cleaned m)) eqn:Hh.
  - rewrite decide_True by done. simpl. by rewrite <- app_assoc.
  - by rewrite decide_False by done.
Qed.

End LoopFacts.

(** ** More on the matches: the scan of a text, case by case *)

Section ScanFacts.

Implicit Types (s t body rest m pre : jsstring) (c : char).

Lemma matchAll_nil : matchAll [] = [].
Proof. done. Qed.

Lemma matchAll_plain c s : c <> OPEN -> matchAll (c :: s) = matchAll s.
Proof.
  intros Hc. unfold matchAll at 1. simpl.
  apply N.eqb_neq in Hc as ->. by apply matchAll_from_enough.
Qed.

Lemma matchAll_open_unclosed s : CLOSE ∉ s -> matchAll (OPEN :: s) = [].
Proof.
  intros H. unfold matchAll. simpl.
  by rewrite find_close_absent, matchAll_from_no_close.
Qed.

Lemma matchAll_region body rest :
  CLOSE ∉ body ->
  matchAll (OPEN :: body ++ CLOSE :: rest)
  = (OPEN :: body ++ [CLOSE]) :: matchAll rest.
Proof. intros H. apply (matchAll_first [] body rest); [apply not_elem_of_nil|done]. Qed.

(** Induction along the scan: a plain code unit, an open bracket
    that nothing closes, or a region and what follows it. *)
Lemma scan_ind (P : jsstring -> Prop) :
  P [] ->
  (forall c s, c <> OPEN -> P s -> P (c :: s)) ->
  (forall s, CLOSE ∉ s -> P (OPEN :: s)) ->
  (forall body rest, CLOSE ∉ body -> P rest ->
     P (OPEN :: body ++ CLOSE :: rest)) ->
  forall s, P s.
Proof.
  intros Hnil Hplain Hopen Hregion s.
  assert (H : forall n t, (length t <= n)%nat -> P t); [|by apply (H (length s))].
  clear s. induction n as [|n IH]; intros s Hn.
  { destruct s; [done|]. simpl in Hn. lia. }
  assert (IH' : forall t, (length t < length s)%nat -> P t).
  { intros t Ht. apply IH. lia. }
  clear IH. destruct s as [|c s]; [done|].
  destruct (N.eqb_spec c OPEN) as [->|Hc].
  - destruct (find_close s) as [[body rest]|] eqn:Hf.
    + pose proof (find_close_shorter _ _ _ Hf) as Hr.
      apply find_close_Some in Hf as [-> Hb].
      apply Hregion; [done|]. apply IH'. simpl. rewrite length_app. simpl.
      rewrite length_app in Hr. simpl in Hr. lia.
    + apply Hopen. by apply find_close_None.
  - apply Hplain; [done|]. apply IH'. simpl. lia.
Qed.

Lemma spans_from_fuel f1 : forall f2 s,
  (length s <= f1)%nat -> (length s <= f2)%nat ->
  spans_from f1 s = spans_from f2 s.
Proof.
  induction f1 as [|f1 IH]; intros [|f2] [|c s] H1 H2; simpl in *;
    try done; try lia.
  destruct (c =? OPEN); [|f_equal; apply IH; lia].
  destruct (find_close s) as [[body rest]|] eqn:Hf; [|f_equal; apply IH; lia].
  apply find_close_shorter in Hf.
  rewrite (IH f2 rest) by lia. done.
Qed.

Lemma speech_plain c s : c <> OPEN -> speech (c :: s) = c :: speech s.
Proof.
  intros Hc. unfold speech, spans. simpl.
  apply N.eqb_neq in Hc as ->. by rewrite speech_of_cons.
Qed.

Lemma speech_open_unclosed s : CLOSE ∉ s -> speech (OPEN :: s) = OPEN :: s.
Proof.
  intros H. unfold speech, spans. simpl.
  rewrite (find_close_absent _ H), speech_of_cons.
  by destruct (spans_from_no_close (length s) s ltac:(done) H) as [-> _].
Qed.

Lemma speech_region body rest :
  CLOSE ∉ body ->
  speech (OPEN :: body ++ CLOSE :: rest)
  = (if isHtml body then [] else OPEN :: body ++ [CLOSE]) ++ speech rest.
Proof.
  intros H. unfold speech, spans. simpl length.
  cbn [spans_from]. rewrite N.eqb_refl, find_close_first by done.
  rewrite isHtml_cleaned.
  assert (E : spans_from (length (body ++ CLOSE :: rest)) rest
              = spans_from (length rest) rest).
  { apply spans_from_fuel; [|done]. rewrite length_app. simpl. lia. }
  rewrite E. destruct (isHtml body); [done|]. by rewrite speech_of_app.
Qed.

Lemma matchAll_skip pre s : OPEN ∉ pre -> matchAll (pre ++ s) = matchAll s.
Proof.
  induction pre as [|c pre IH]; intros H; [done|].
  apply not_elem_of_cons in H as [Hc H]. simpl.
  rewrite matchAll_plain by done. by apply IH.
Qed.

Lemma matchAll_app_unclosed s t :
  CLOSE ∉ t -> matchAll (s ++ t) = matchAll s.
Proof.
  intros Ht. induction s as [|c s Hc IH|s Hs|body rest Hb IH] using scan_ind.
  - unfold matchAll. by rewrite matchAll_from_no_close.
  - simpl. by rewrite !matchAll_plain.
  - simpl. rewrite !matchAll_open_unclosed; [done|done|].
    intros [?|?]%elem_of_app; done.
  - replace ((OPEN :: body ++ CLOSE :: rest) ++ t)
      with (OPEN :: body ++ CLOSE :: (rest ++ t))
      by (simpl; by rewrite <- app_assoc).
    by rewrite !matchAll_region, IH.
Qed.

Lemma ws_not_open s : Forall (fun c => is_ws c = true) s -> OPEN ∉ s.
Proof.
  intros H Hin. rewrite Forall_forall in H. by specialize (H _ Hin).
Qed.

Lemma ws_not_close s : Forall (fun c => is_ws c = true) s -> CLOSE ∉ s.
Proof.
  intros H Hin. rewrite Forall_forall in H. by specialize (H _ Hin).
Qed.

Lemma matchAll_trim s : matchAll (trim s) = matchAll s.
Proof.
  destruct (trim_split s) as (a & b & E & Ha & Hb).
  rewrite E at 2.
  rewrite matchAll_skip by by apply ws_not_open.
  by rewrite matchAll_app_unclosed by by apply ws_not_close.
Qed.

(** The matches of the speech are the matches that are not renderable. *)
Lemma matchAll_speech s :
  matchAll (speech s)
  = filter (fun m => isHtml (cleaned m) = false) (matchAll s).
Proof.
  induction s as [|c s Hc IH|s Hs|body rest Hb IH] using scan_ind.
  - done.
  - by rewrite speech_plain, !matchAll_plain.
  - by rewrite speech_open_unclosed, matchAll_open_unclosed.
  - rewrite speech_region, matchAll_region by done.
    rewrite filter_cons, isHtml_cleaned.
    destruct (isHtml body) eqn:Hh.
    + by rewrite decide_False.
    + rewrite decide_True by done. simpl.
      rewrite <- app_assoc. simpl. by rewrite matchAll_region, IH.
Qed.

Lemma dropWhile_fixed (f : char -> bool) s :
  match s with [] => True | c :: _ => f c = false end -> dropWhile f s = s.
Proof. destruct s as [|c s]; [done|]. simpl. by intros ->. Qed.

Lemma dropWhile_head (f : char -> bool) s :
  match dropWhile f s with [] => True | c :: _ => f c = false end.
Proof.
  induction s as [|c s IH]; [done|]. simpl.
  destruct (f c) eqn:E; [done|]. simpl. done.
Qed.

Lemma trim_idempotent s : trim (trim s) = trim s.
Proof.
  unfold trim, trimEnd, trimStart.
  set (u := dropWhile is_ws s). set (v := dropWhile is_ws (reverse u)).
  assert (Hv : match v with [] => True | c :: _ => is_ws c = false end)
    by apply dropWhile_head.
  assert (Hu : match u with [] => True | c :: _ => is_ws c = false end)
    by apply dropWhile_head.
  assert (Hr : dropWhile is_ws (reverse v) = reverse v).
  { apply dropWhile_fixed.
    destruct (dropWhile_split is_ws (reverse u)) as (r & E & _).
    fold v in E. apply (f_equal reverse) in E.
    rewrite reverse_involutive, reverse_app in E.
    destruct (reverse v) as [|c x]; [done|].
    rewrite E in Hu. done. }
  rewrite Hr, reverse_involutive. by rewrite (dropWhile_fixed _ v Hv).
Qed.

(** The cleaned content of a region is a piece of its raw content. *)
Lemma cleaned_inside body :
  exists a b, body = a ++ cleaned (OPEN :: body ++ [CLOSE]) ++ b.
Proof.
  unfold cleaned. rewrite slice_region.
  destruct (strip_open_fence_split body) as (r1 & E1 & _).
  destruct (strip_close_fence_split (strip_open_fence body)) as (r2 & E2 & _).
  destruct (trim_split (strip_close_fence (strip_open_fence body)))
    as (a & b & E3 & _).
  exists (r1 ++ a), (b ++ r2).
  rewrite E1 at 1. rewrite E2 at 1. rewrite E3 at 1.
  by rewrite <- !app_assoc.
Qed.

End ScanFacts.

(** ** Properties of the demultiplexer *)

Section DemuxProperties.

Implicit Types (text m : jsstring).

Lemma codes_filter text :
  codes (parseAgentResponse text)
  = cleaned <$> filter (fun m => isHtml (cleaned m) = true) (matchAll text).
Proof. unfold parseAgentResponse. simpl. by rewrite loop_codes. Qed.

Lemma parse_spans text :
  parseAgentResponse text
  = {| spokenText := trim (speech_of (spans text));
       codes := payloads_of (spans text) |}.
Proof.
  unfold parseAgentResponse, matchAll, spans.
  pose proof (loop_spans (length text) text [] []
                ltac:(done) stepped_over_nil) as H.
  cbv zeta.
  change (foldl parse_step (text, []) (matchAll_from (length text) text))
    with (foldl parse_step ([] ++ text, []) (matchAll_from (length text) text)).
  by rewrite H.
Qed.

(** C1, as stated, fails: the region below is classified as code
    although its cleaned content starts with neither marker. *)
Lemma marker_inside_counterexample :
  let text := OPEN :: lit "hi <html>" ++ [CLOSE] in
  matchAll text = [text]
  /\ codes (parseAgentResponse text) = [cleaned text]
  /\ spec_document_root (cleaned text) = false.
Proof. vm_compute. done. Qed.

(** C1, amended: a completed delimited region is classified as a
    renderable code payload exactly when its cleaned content contains,
    anywhere and with this very spelling, [<html] or [<!DOCTYPE]; a
    region whose cleaned content contains neither is not renderable. *)
Theorem renderable_iff_marker_inside text m :
  m ∈ matchAll text ->
  cleaned m ∈ codes (parseAgentResponse text)
  <-> (exists a b, cleaned m = a ++ lit "<html" ++ b)
      \/ (exists a b, cleaned m = a ++ lit "<!DOCTYPE" ++ b).
Proof.
  intros Hm. rewrite codes_filter, <- isHtml_spec. split.
  - intros H. apply list_elem_of_fmap in H as (m' & E & H).
    apply list_elem_of_filter in H as [H _]. by rewrite E.
  - intros H. apply list_elem_of_fmap. exists m. split; [done|].
    by apply list_elem_of_filter.
Qed.

Lemma renderable_iff_marker_inside_witness :
  let text := OPEN :: lit "hi <html>" ++ [CLOSE] in
  cleaned text ∈ codes (parseAgentResponse text)
  <-> (exists a b, cleaned text = a ++ lit "<html" ++ b)
      \/ (exists a b, cleaned text = a ++ lit "<!DOCTYPE" ++ b).
Proof.
  intros text. apply (renderable_iff_marker_inside text text).
  vm_compute. by left.
Defined.

(** C2, as stated, fails: without any code in the text, the returned
    spans give back the text without its leading white space. *)
Lemma round_trip_counterexample :
  reassemble (returned_spans (parseAgentResponse (lit " hi"))) <> lit " hi".
Proof. vm_compute. discriminate. Qed.

(** No reading of the returned value gives the text back: two texts
    have the same result. *)
Lemma parseAgentResponse_not_injective :
  parseAgentResponse (lit " hi") = parseAgentResponse (lit "hi")
  /\ lit " hi" <> lit "hi".
Proof. split; [by vm_compute|discriminate]. Qed.

Lemma no_rebuild :
  ~ exists rebuild : ParseResult -> jsstring,
      forall text, rebuild (parseAgentResponse text) = text.
Proof.
  intros [rebuild H]. destruct parseAgentResponse_not_injective as [E Hne].
  apply Hne. by rewrite <- (H (lit " hi")), E, H.
Qed.

(** C2, amended: the ordered decomposition of the text into speech
    spans and renderable code regions gives the text back, delimiters
    put back around the raw content of every code span; the
    demultiplexer returns the speech of this decomposition in one
    piece, trimmed, and the cleaned content of its code spans. *)
Theorem round_trip_of_decomposition text :
  reassemble (spans text) = text
  /\ spokenText (parseAgentResponse text) = trim (speech_of (spans text))
  /\ codes (parseAgentResponse text) = payloads_of (spans text).
Proof.
  split; [by apply reassemble_spans_from|]. by rewrite parse_spans.
Qed.

(** The returned spoken text is the text itself when nothing is
    renderable and no white space surrounds the text. *)
Lemma spoken_text_identity text :
  codes (parseAgentResponse text) = [] -> trim text = text ->
  spokenText (parseAgentResponse text) = text.
Proof.
  intros Hc Ht. rewrite parse_spans in *. simpl in *.
  assert (E : speech_of (spans text) = reassemble (spans text)).
  { revert Hc. generalize (spans text). intros l.
    induction l as [|[t|r c] l IH]; [done| |done].
    intros Hc.
    change (t ++ speech_of l = t ++ reassemble l). by rewrite IH. }
  rewrite E. unfold spans.
  by rewrite (reassemble_spans_from (length text) text).
Qed.

End DemuxProperties.

(** ** Properties of the page handlers *)

Section PageProperties.

Import Message Page.

Implicit Types (text m : jsstring) (st : PageState).
Implicit Types (msg : TranscriptionMessage).

Lemma commit_all_transcript now cs : forall st,
  transcript (foldl (commit now) st cs) = transcript st.
Proof. induction cs as [|c cs IH]; intros st; simpl; [done|by rewrite IH]. Qed.

Lemma commit_all_codeBlocks now cs : forall st,
  codeBlocks (foldl (commit now) st cs)
  = codeBlocks st
    ++ ((fun c => {| html := c; block_timestamp := now |}) <$> cs).
Proof.
  induction cs as [|c cs IH]; intros st; simpl; [by rewrite app_nil_r|].
  rewrite IH. simpl. by rewrite <- app_assoc.
Qed.

Lemma commit_all_currentCode now cs : forall st,
  currentCode (foldl (commit now) st cs)
  = from_option id (currentCode st) (last cs).
Proof.
  induction cs as [|c cs IH]; intros st; [done|].
  simpl foldl. rewrite IH, last_cons. simpl. by destruct (last cs).
Qed.

Lemma commit_all_frame now cs : forall st,
  let st' := foldl (commit now) st cs in
  isConnected st' = isConnected st /\ isMicActive st' = isMicActive st
  /\ isGeneratingCode st' = isGeneratingCode st
  /\ agentId st' = agentId st /\ agoraClientRef st' = agoraClientRef st.
Proof.
  induction cs as [|c cs IH]; intros st; [done|].
  simpl. destruct (IH (commit now st c)) as (-> & -> & -> & -> & ->). done.
Qed.

Lemma includes_unit (s : jsstring) (c : char) :
  includes s [c] = true <-> c ∈ s.
Proof.
  split.
  - intros (a & b & ->)%includes_inv. apply elem_of_app. right. by left.
  - intros (a & b & ->)%list_elem_of_split. apply (includes_intro a [c] b).
Qed.

(** What a message does to the versions, with the one clock reading of
    the model. *)
Lemma callback_versions now msg st :
  let cs := if isFinal msg then codes (parseAgentResponse (text msg))
            else [] in
  codeBlocks (transcriptionCallback now msg st)
  = codeBlocks st
    ++ ((fun c => {| html := c; block_timestamp := now |}) <$> cs)
  /\ currentCode (transcriptionCallback now msg st)
     = from_option id (currentCode st) (last cs).
Proof.
  unfold transcriptionCallback.
  destruct (isFinal msg); rewrite ?andb_true_r, ?andb_false_r.
  - destruct (codes _) as [|c cs] eqn:E.
    + simpl. rewrite app_nil_r.
      by (destruct (nonempty _), (type msg); try destruct (includes _ _)).
    + change (0 <? length (c :: cs))%nat with true. cbv iota.
      rewrite commit_all_codeBlocks, commit_all_currentCode.
      by (destruct (nonempty _), (type msg); try destruct (includes _ _)).
  - simpl. rewrite app_nil_r.
    by (destruct (type msg); try destruct (includes _ _)).
Qed.

(** A final message puts its spoken text, when there is one, in the
    transcript. *)
Lemma final_transcript now msg st :
  isFinal msg = true -> spokenText (parseAgentResponse (text msg)) <> [] ->
  transcript (transcriptionCallback now msg st)
  = transcript st
    ++ [{| entry_type := type msg;
           entry_text := spokenText (parseAgentResponse (text msg));
           entry_timestamp := now |}].
Proof.
  intros Hf Hs. unfold transcriptionCallback. rewrite Hf, !andb_true_r.
  destruct (spokenText _) as [|c s] eqn:E; [done|]. simpl nonempty. cbv iota.
  assert (Ht : forall st1, transcript
    (setTranscript (fun prev => prev ++ [{| entry_type := type msg;
        entry_text := c :: s; entry_timestamp := now |}]) st1)
    = transcript st1 ++ [{| entry_type := type msg;
        entry_text := c :: s; entry_timestamp := now |}]) by done.
  destruct (0 <? _)%nat; rewrite ?commit_all_transcript, Ht;
    by (destruct (type msg); try destruct (includes _ _)).
Qed.

(** C3, as stated, fails: the content of the region below fails the
    document-root heuristic of the specification, it starts with [hi]
    and not with a marker; yet the region is taken out of the spoken
    text and committed as a code version, and the final message leaves
    no entry in the transcript. *)
Lemma heuristic_failure_counterexample :
  let region := OPEN :: lit "hi <html>" ++ [CLOSE] in
  let msg := {| type := agent; text := region; isFinal := true;
                timestamp := 7 |} in
  let st' := transcriptionCallback 8 msg Samples.sample_page in
  matchAll region = [region]
  /\ spec_document_root (slice_1_m1 region) = false
  /\ spec_document_root (cleaned region) = false
  /\ spokenText (parseAgentResponse region) = []
  /\ transcript st' = []
  /\ codeBlocks st' = [{| html := lit "hi <html>"; block_timestamp := 8 |}].
Proof. vm_compute. done. Qed.

(** C3, amended: a delimited region whose cleaned content holds neither
    [<html] nor [<!DOCTYPE] anywhere, the validation of the loop body,
    stays, delimiters included, in the spoken text, is not among the
    code payloads, and a final message carries it into the transcript;
    the final text [【just kidding, no code here】] is one transcript
    entry, brackets included, and commits no code. *)
Theorem unrenderable_region_is_speech text m :
  m ∈ matchAll text -> isHtml (cleaned m) = false ->
  (exists a b, spokenText (parseAgentResponse text) = a ++ m ++ b)
  /\ (cleaned m ∉ codes (parseAgentResponse text))
  /\ (forall now msg st, text = Message.text msg -> isFinal msg = true ->
        transcript (transcriptionCallback now msg st)
        = transcript st ++ [{| entry_type := type msg;
              entry_text := spokenText (parseAgentResponse text);
              entry_timestamp := now |}])
  /\ (forall now msg st,
        let kidding := OPEN :: lit "just kidding, no code here" ++ [CLOSE] in
        Message.text msg = kidding -> isFinal msg = true ->
        let st' := transcriptionCallback now msg st in
        transcript st'
        = transcript st ++ [{| entry_type := type msg; entry_text := kidding;
                               entry_timestamp := now |}]
        /\ codeBlocks st' = codeBlocks st /\ currentCode st' = currentCode st).
Proof.
  intros Hm Hh.
  assert (Hs : exists a b, spokenText (parseAgentResponse text) = a ++ m ++ b).
  { rewrite parse_spans. simpl.
    destruct (kept_in_speech (length text) text m ltac:(done) Hm Hh)
      as (a & b & E).
    destruct (matchAll_from_shape _ _ _ Hm) as (body & -> & _).
    fold (spans text) in E. rewrite E.
    apply trim_keeps; by vm_compute. }
  split; [done|]. split; [|split].
  - rewrite codes_filter. intros H.
    apply list_elem_of_fmap in H as (m' & E & H).
    apply list_elem_of_filter in H as [H _]. congruence.
  - intros now msg st -> Hf. apply final_transcript; [done|].
    destruct Hs as (a & b & ->).
    destruct (matchAll_from_shape _ _ _ Hm) as (body & -> & _).
    by destruct a.
  - intros now msg st kidding Ht Hf st'. subst st'.
    assert (Hp : parseAgentResponse (Message.text msg)
                 = {| spokenText := kidding; codes := [] |})
      by (rewrite Ht; by vm_compute).
    split; [rewrite final_transcript; rewrite ?Hp; done|].
    unfold transcriptionCallback. rewrite Hp, Hf. simpl.
    by (destruct (type msg); try destruct (includes _ _)).
Qed.

Lemma unrenderable_region_is_speech_witness :
  let kidding := OPEN :: lit "just kidding, no code here" ++ [CLOSE] in
  exists a b, spokenText (parseAgentResponse kidding) = a ++ kidding ++ b.
Proof.
  intros kidding.
  refine (proj1 (unrenderable_region_is_speech kidding kidding _ _)).
  - vm_compute. by left.
  - by vm_compute.
Defined.

(** C4: a message that is not final appends no code version and leaves
    the current code as it is; versions are committed by final messages
    only. *)
Theorem interim_commits_nothing now msg st :
  isFinal msg = false ->
  codeBlocks (transcriptionCallback now msg st) = codeBlocks st
  /\ currentCode (transcriptionCallback now msg st) = currentCode st.
Proof.
  intros Hf. unfold transcriptionCallback. rewrite Hf, !andb_false_r. simpl.
  by (destruct (type msg); try destruct (includes _ _)).
Qed.

Lemma interim_commits_nothing_witness :
  let msg := {| type := agent;
                text := OPEN :: lit "<!DOCTYPE html><html></html>" ++ [CLOSE];
                isFinal := false; timestamp := 7 |} in
  let st := {| isConnected := true; isMicActive := true;
               isGeneratingCode := false; transcript := [];
               codeBlocks := [{| html := lit "<html>v1</html>";
                                 block_timestamp := 1 |}];
               currentCode := lit "<html>v1</html>";
               agentId := Some (lit "a1"); agoraClientRef := Some (lit "c") |} in
  codeBlocks (transcriptionCallback 8 msg st) = codeBlocks st
  /\ currentCode (transcriptionCallback 8 msg st) = currentCode st.
Proof.
  intros msg st. apply (interim_commits_nothing 8 msg st). reflexivity.
Defined.

(** A version is committed by a final message only. *)
Lemma commit_needs_final now msg st :
  codeBlocks (transcriptionCallback now msg st) <> codeBlocks st ->
  isFinal msg = true.
Proof.
  intros H. destruct (isFinal msg) eqn:Hf; [done|]. destruct H.
  unfold transcriptionCallback. rewrite Hf, !andb_false_r. simpl.
  by (destruct (type msg); try destruct (includes _ _)).
Qed.

Lemma matchAll_from_unmatched fuel pre post :
  OPEN ∉ pre -> CLOSE ∉ post -> matchAll_from fuel (pre ++ OPEN :: post) = [].
Proof.
  intros Hpre Hpost. revert fuel.
  induction pre as [|c pre IH]; intros [|fuel]; try done.
  - simpl. by rewrite find_close_absent, matchAll_from_no_close.
  - apply not_elem_of_cons in Hpre as [Hc Hpre]. simpl.
    destruct (N.eqb_spec c OPEN) as [->|_]; [done|]. by apply IH.
Qed.




(** C8: disconnecting never touches the code versions nor the current
    code; when neither awaited call rejects it resolves, with the
    transcript, the connection flag and the microphone flag cleared. *)
Theorem disconnect_keeps_code net st :
  (codeBlocks (handleDisconnect net st).1 = codeBlocks st
   /\ currentCode (handleDisconnect net st).1 = currentCode st)
  /\ (leave_agent_rejects net = false ->
      client_disconnect_rejects net = false ->
      (handleDisconnect net st).2 = Resolved
      /\ transcript (handleDisconnect net st).1 = []
      /\ isConnected (handleDisconnect net st).1 = false
      /\ isMicActive (handleDisconnect net st).1 = false).
Proof.
  unfold handleDisconnect. split.
  - destruct (_ && _); [done|].
    destruct (agoraClientRef st); [destruct (client_disconnect_rejects net)|];
      done.
  - intros -> ->. rewrite andb_false_r. by destruct (agoraClientRef st).
Qed.

Lemma disconnect_keeps_code_witness :
  let net := {| leave_agent_rejects := false;
                client_disconnect_rejects := false |} in
  let st := {| isConnected := true; isMicActive := true;
               isGeneratingCode := false;
               transcript := [{| entry_type := user; entry_text := lit "hello";
                                 entry_timestamp := 3 |}];
               codeBlocks := [{| html := lit "<html>v1</html>";
                                 block_timestamp := 1 |}];
               currentCode := lit "<html>v1</html>";
               agentId := Some (lit "a1"); agoraClientRef := Some (lit "c") |} in
  (handleDisconnect net st).2 = Resolved
  /\ transcript (handleDisconnect net st).1 = []
  /\ isConnected (handleDisconnect net st).1 = false
  /\ isMicActive (handleDisconnect net st).1 = false.
Proof.
  intros net st.
  apply (proj2 (disconnect_keeps_code net st)); reflexivity.
Defined.

End PageProperties.

(** ** Scenarios *)

Section Scenarios.

Import Message Page Samples.

Example parse_button :
  parseAgentResponse button_text
  = {| spokenText := lit "Here's a button  enjoy.";
       codes := [lit "<!DOCTYPE html><html><body>Hi</body></html>"] |}.
Proof. by vm_compute. Qed.

Example spans_button :
  spans button_text
  = [Speech (lit "Here's a button ");
     CodePayload (lit "<!DOCTYPE html><html><body>Hi</body></html>")
                 (lit "<!DOCTYPE html><html><body>Hi</body></html>");
     Speech (lit " enjoy.")].
Proof. by vm_compute. Qed.

Example final_button :
  let msg := {| type := agent; text := button_text; isFinal := true;
                timestamp := 7 |} in
  let st' :=
    transcriptionCallback 8 msg (setIsGeneratingCode true sample_page) in
  transcript st'
  = [{| entry_type := agent; entry_text := lit "Here's a button  enjoy.";
        entry_timestamp := 8 |}]
  /\ codeBlocks st'
     = [{| html := lit "<!DOCTYPE html><html><body>Hi</body></html>";
           block_timestamp := 8 |}]
  /\ currentCode st' = lit "<!DOCTYPE html><html><body>Hi</body></html>"
  /\ isGeneratingCode st' = false.
Proof. by vm_compute. Qed.

Example parse_array :
  parseAgentResponse (lit "[1,2,3] is an array")
  = {| spokenText := lit "[1,2,3] is an array"; codes := [] |}
  /\ spans (lit "[1,2,3] is an array") = [Speech (lit "[1,2,3] is an array")].
Proof. by vm_compute. Qed.

(** A fenced payload loses its fences, a lower-case doctype alone is
    not recognised. *)
Example parse_fenced :
  codes (parseAgentResponse
           (OPEN :: lit "```html" ++ NEWLINE :: lit "<html>x</html>"
              ++ NEWLINE :: lit "```" ++ [CLOSE]))
  = [lit "<html>x</html>"].
Proof. by vm_compute. Qed.

Example parse_lower_doctype :
  let text := OPEN :: lit "<!doctype html><body>x</body>" ++ [CLOSE] in
  parseAgentResponse text = {| spokenText := text; codes := [] |}.
Proof. by vm_compute. Qed.

(** A complete region is committed whatever follows it, an open bracket
    left unterminated included: only the text from that bracket on is
    without match. *)
Example complete_then_unterminated :
  let text := OPEN :: lit "<html>a</html>" ++ CLOSE :: OPEN :: lit "<html>b" in
  parseAgentResponse text
  = {| spokenText := OPEN :: lit "<html>b";
       codes := [lit "<html>a</html>"] |}.
Proof. by vm_compute. Qed.

End Scenarios.

(** ** Properties of the RTM listener *)

Section ListenerProperties.

Import Message Rtm.

Context {Σ : Type}.
Variable JSON_parse : jsval -> option jsval.
Variable channel : jsstring.
Variable onTranscription : option (TranscriptionMessage -> Σ -> Σ * option exn).
Variable now : N.

Implicit Types (event : RtmEvent) (w : World Σ) (data v : jsval)
  (frag : TranscriptionMessage).

(** Runs the listener up to the test of the channel. *)
Ltac run_listener :=
  unfold onMessage, try_catch, listener_body, mbind, M_bind, bind, lift;
  cbn [log].

Lemma jsstring_eqb_eq (s t : jsstring) : JsString.eqb s t = true <-> s = t.
Proof.
  revert t. induction s as [|c s IH]; intros [|d t]; simpl; try done.
  rewrite andb_true_iff, N.eqb_eq, IH. split; [by intros [-> ->]|].
  by intros [= -> ->].
Qed.

Lemma strict_eq_number v :
  strict_eq v (JNumber 1) = true
  <-> exists x, v = JNumber x /\ PrimFloat.eqb x 1 = true.
Proof.
  split.
  - destruct v; try done. intros H. by eexists.
  - by intros (x & -> & H).
Qed.

Lemma strict_eq_true v : strict_eq v (JBool true) = true <-> v = JBool true.
Proof.
  split; [|by intros ->]. destruct v as [| |[]| | | |]; done.
Qed.

(** What [handle_data] does to the callback: nothing, or one call with
    the fragment of the data and a text that is not empty. *)
Lemma handle_data_calls data w :
  let w' := (handle_data onTranscription now data w).1 in
  (calls w' = calls w /\ ui w' = ui w)
  \/ (exists s cb,
        extracted_text data = JString s /\ s <> []
        /\ onTranscription = Some cb
        /\ calls w' = calls w ++ [fragment now data s]
        /\ ui w' = (cb (fragment now data s) (ui w)).1).
Proof.
  unfold handle_data, mbind, M_bind, bind, lift, get.
  destruct (nullish data); [by left|].
  destruct (is_transcription data); [|by left].
  destruct (extracted_text data) as [| | | |s| |] eqn:E; try by left.
  destruct s as [|c s]; [by left|].
  destruct onTranscription as [cb|] eqn:Hcb; [|by left].
  right. exists (c :: s), cb. cbn. unfold invoke. cbn.
  by destruct (cb _ _) as [ui' r].
Qed.

(** The listener never throws, and calls the callback at most once:
    with the fragment of the parsed data, when the event is not foreign
    and the extracted text is a string that is not empty. *)
Lemma listener_calls event w :
  (onMessage JSON_parse channel onTranscription now event w).2 = inr tt
  /\ let w' :=
       (onMessage JSON_parse channel onTranscription now event w).1 in
     ((calls w' = calls w /\ ui w' = ui w)
      \/ (exists data s cb,
            foreign channel event = false
            /\ parse_message JSON_parse (message event) = inr data
            /\ extracted_text data = JString s /\ s <> []
            /\ onTranscription = Some cb
            /\ calls w' = calls w ++ [fragment now data s]
            /\ ui w' = (cb (fragment now data s) (ui w)).1)).
Proof.
  run_listener. destruct (foreign channel event) eqn:Hfo; [split; [done|by left]|].
  destruct (parse_message JSON_parse (message event)) as [e|data] eqn:Hp;
    [split; [done|by left]|].
  cbn [log console calls ui].
  set (w1 := mkWorld _ _ _).
  pose proof (handle_data_calls data w1) as H. cbv zeta in H.
  destruct (handle_data onTranscription now data w1) as [w2 [e|[]]];
    (split; [done|]); cbn [fst snd log calls ui] in *;
    (destruct H as [H|(s & cb & H)]; [by left|right; by exists data, s, cb]).
Qed.

(** C6: the finality flag of the fragment produced from a parsed
    message is true exactly when the [turn_status] of the message is the
    number 1 or its [final] is the boolean [true]. *)
Theorem finality_is_either_signal event w data frag :
  parse_message JSON_parse (message event) = inr data ->
  calls (onMessage JSON_parse channel onTranscription now event w).1
  = calls w ++ [frag] ->
  isFinal frag = true
  <-> (exists x, field data "turn_status" = JNumber x
                 /\ PrimFloat.eqb x 1 = true)
      \/ field data "final" = JBool true.
Proof.
  intros Hp Hc. destruct (listener_calls event w) as [_ H]. cbv zeta in H.
  destruct H as [[H _]|(data' & s & cb & _ & Hp' & _ & _ & _ & H & _)].
  - rewrite H in Hc. rewrite <- (app_nil_r (calls w)) in Hc at 1.
    by apply app_inv_head in Hc.
  - rewrite Hp in Hp'. injection Hp' as <-.
    rewrite H in Hc. apply app_inv_head in Hc. injection Hc as <-.
    cbn [isFinal fragment]. unfold finality.
    by rewrite orb_true_iff, strict_eq_number, strict_eq_true.
Qed.

(** C7: a message whose payload fails to parse is dropped: the callback
    is not called, its state does not change, the listener returns
    normally, and the failure only shows on the console (it does not
    even show there when the event is foreign, whose payload is not
    parsed at all). *)
Theorem parse_failure_dropped event w e :
  parse_message JSON_parse (message event) = inl e ->
  onMessage JSON_parse channel onTranscription now event w
  = (mkWorld (console w ++ LogRtmMessage ::
                (if foreign channel event then [] else [ErrFailedToParse]))
       (calls w) (ui w),
     inr tt).
Proof.
  intros Hp.
  run_listener. destruct (foreign channel event); [done|].
  rewrite Hp. unfold log. cbn. by rewrite <- app_assoc.
Qed.

(** A payload that parses to something else than an object, a number or
    an array say, is dropped as well: no property of it is set. *)
Lemma non_object_dropped event w data :
  parse_message JSON_parse (message event) = inr data ->
  (forall o, data <> JObject o) -> nullish data = false ->
  onMessage JSON_parse channel onTranscription now event w
  = (mkWorld (console w ++ LogRtmMessage ::
                (if foreign channel event then [] else [LogParsedData]))
       (calls w) (ui w),
     inr tt).
Proof.
  intros Hp Ho Hn.
  run_listener. destruct (foreign channel event); [done|].
  rewrite Hp. unfold handle_data, mbind, M_bind, bind, lift, get, log.
  rewrite Hn. cbn.
  assert (Hf : is_transcription data = false).
  { destruct data; try done. by destruct (Ho fields). }
  rewrite Hf. unfold ret. by rewrite <- app_assoc.
Qed.

(** C9: an event tagged with a channel identifier other than the one of
    the session is ignored: nothing is parsed, the callback is not
    called. *)
Theorem foreign_channel_ignored event w c :
  channelName event = JString c -> c <> [] -> c <> channel ->
  onMessage JSON_parse channel onTranscription now event w
  = (mkWorld (console w ++ [LogRtmMessage]) (calls w) (ui w), inr tt).
Proof.
  intros Hn Hc Hne.
  assert (Hfo : foreign channel event = true).
  { unfold foreign. rewrite Hn. cbn [truthy strict_eq].
    destruct (JsString.eqb c channel) eqn:E;
      [by apply jsstring_eqb_eq in E|]. by destruct c. }
  run_listener. by rewrite Hfo.
Qed.

(** C10: the callback is never called with an empty text, and a message
    whose extracted text is empty produces no call, whatever its tag and
    its finality flag. *)
Theorem no_fragment_without_text event w :
  (exists new,
      calls (onMessage JSON_parse channel onTranscription now event w).1
      = calls w ++ new
      /\ Forall (fun frag => text frag <> []) new)
  /\ (forall data,
        parse_message JSON_parse (message event) = inr data ->
        extracted_text data = JString [] ->
        calls (onMessage JSON_parse channel onTranscription now event w).1
        = calls w
        /\ ui (onMessage JSON_parse channel onTranscription now event w).1
           = ui w).
Proof.
  destruct (listener_calls event w) as [_ H]. cbv zeta in H.
  destruct H as [[H1 H2]|(data & s & cb & _ & Hp & Hx & Hs & _ & H & _)].
  - split; [|done]. exists []. by rewrite app_nil_r.
  - split.
    + exists [fragment now data s]. split; [done|]. by repeat constructor.
    + intros data' Hp' Hx'. rewrite Hp in Hp'. injection Hp' as <-.
      rewrite Hx in Hx'. by injection Hx' as ->.
Qed.

End ListenerProperties.

(** ** The listener wired to the page, on sample events *)

Section SampleEvents.

Import Message Page Rtm Samples.

Lemma finality_is_either_signal_witness :
  let data := transcription_object (JString (lit "hi")) in
  let frag := {| type := agent; text := lit "hi"; isFinal := true;
                 timestamp := 8 |} in
  isFinal frag = true
  <-> (exists x, field data "turn_status" = JNumber x
                 /\ PrimFloat.eqb x 1 = true)
      \/ field data "final" = JBool true.
Proof.
  intros data frag.
  apply (finality_is_either_signal sample_parse (lit "room")
           (page_callback 8) 8
           {| channelName := JString (lit "room"); message := data |}
           sample_world data frag).
  - vm_compute. reflexivity.
  - vm_compute. reflexivity.
Defined.

Lemma parse_failure_dropped_witness :
  let event := {| channelName := JUndefined;
                  message := JString (lit "not json") |} in
  onMessage sample_parse (lit "room") (page_callback 8) 8 event sample_world
  = (mkWorld [LogRtmMessage; ErrFailedToParse] [] sample_page, inr tt).
Proof.
  intros event.
  apply (parse_failure_dropped sample_parse (lit "room") (page_callback 8) 8
           event sample_world SyntaxError).
  vm_compute. reflexivity.
Defined.

Lemma foreign_channel_ignored_witness :
  let event := {| channelName := JString (lit "other");
                  message := transcription_object (JString (lit "hi")) |} in
  onMessage sample_parse (lit "room") (page_callback 8) 8 event sample_world
  = (mkWorld [LogRtmMessage] [] sample_page, inr tt).
Proof.
  intros event.
  apply (foreign_channel_ignored sample_parse (lit "room")
           (page_callback 8) 8
           event sample_world (lit "other")).
  - reflexivity.
  - discriminate.
  - discriminate.
Defined.

Lemma no_fragment_without_text_witness :
  let data := transcription_object (JString []) in
  let event := {| channelName := JUndefined; message := data |} in
  let w' := (onMessage sample_parse (lit "room") (page_callback 8) 8
               event sample_world).1 in
  calls w' = [] /\ ui w' = sample_page.
Proof.
  intros data event w'.
  apply (proj2 (no_fragment_without_text sample_parse (lit "room")
                  (page_callback 8) 8 event sample_world) data).
  - vm_compute. reflexivity.
  - vm_compute. reflexivity.
Defined.

(** The guard of the listener tests the tag for truth first: an event
    whose tag is the empty string passes it, as an event without tag
    does. *)
Example empty_tag_is_no_tag :
  let event := {| channelName := JString [];
                  message := transcription_object (JString (lit "hi")) |} in
  foreign (lit "room") event = false
  /\ calls (onMessage sample_parse (lit "room") (page_callback 8) 8
              event sample_world).1
     = [{| type := agent; text := lit "hi"; isFinal := true;
           timestamp := 8 |}].
Proof. vm_compute. done. Qed.

(** The same tagged final message with a text reaches the page. *)
Example tagged_message_reaches_page :
  let event := {| channelName := JString (lit "room");
                  message := transcription_object (JString (lit "hi")) |} in
  let w' := (onMessage sample_parse (lit "room") (page_callback 8) 8
               event sample_world).1 in
  calls w' = [{| type := agent; text := lit "hi"; isFinal := true;
                 timestamp := 8 |}]
  /\ transcript (ui w')
     = [{| entry_type := agent; entry_text := lit "hi"; entry_timestamp := 8 |}].
Proof. vm_compute. done. Qed.

End SampleEvents.

(** ** Further properties of [parseAgentResponse] *)

Section DemuxExtras.

Implicit Types (text m body rest pre code : jsstring).

(** X1: parsing the spoken text again finds no code and gives the same
    spoken text: every region left in the speech is one the validation
    rejects, and the text is already trimmed. *)
Theorem reparse_spoken_text text :
  parseAgentResponse (spokenText (parseAgentResponse text))
  = {| spokenText := spokenText (parseAgentResponse text); codes := [] |}.
Proof.
  set (spoken := spokenText (parseAgentResponse text)).
  assert (Hs : spoken = trim (speech text)).
  { unfold spoken. by rewrite parse_spans. }
  assert (Hc : codes (parseAgentResponse spoken) = []).
  { rewrite codes_filter, Hs, matchAll_trim, matchAll_speech.
    induction (matchAll text) as [|m l IH]; [done|].
    rewrite filter_cons. destruct (isHtml (cleaned m)) eqn:Hh.
    - by rewrite decide_False.
    - rewrite decide_True by done. rewrite filter_cons.
      by rewrite decide_False by congruence. }
  assert (Ht : trim spoken = spoken) by (rewrite Hs; apply trim_idempotent).
  pose proof (spoken_text_identity spoken Hc Ht) as H.
  destruct (parseAgentResponse spoken) as [sp cs]. simpl in *. by subst.
Qed.

(** X2: every code payload returned is recognised as HTML, is trimmed,
    is not empty and holds no close bracket. *)
Theorem codes_well_formed text code :
  code ∈ codes (parseAgentResponse text) ->
  isHtml code = true /\ trim code = code /\ code <> [] /\ CLOSE ∉ code.
Proof.
  rewrite codes_filter. intros H.
  apply list_elem_of_fmap in H as (m & -> & H).
  apply list_elem_of_filter in H as [Hh Hm].
  destruct (matchAll_from_shape _ _ _ Hm) as (body & -> & Hb).
  split; [done|]. split; [apply trim_idempotent|]. split.
  - intros E. by rewrite E in Hh.
  - destruct (cleaned_inside body) as (a & b & E). intros Hin.
    apply Hb. rewrite E. apply elem_of_app. right.
    apply elem_of_app. by left.
Qed.

Lemma codes_well_formed_witness :
  let code := lit "<html>x</html>" in
  isHtml code = true /\ trim code = code /\ code <> [] /\ CLOSE ∉ code.
Proof.
  intros code.
  apply (codes_well_formed
           (lit "see " ++ OPEN :: lit " <html>x</html> " ++ [CLOSE]) code).
  vm_compute. by left.
Defined.

(** X3: a text without open bracket is all speech: it is returned
    trimmed, with no code. *)
Theorem plain_text_is_speech text :
  OPEN ∉ text ->
  parseAgentResponse text = {| spokenText := trim text; codes := [] |}.
Proof.
  intros H.
  assert (Hm : matchAll text = []).
  { rewrite <- (app_nil_r text). by rewrite matchAll_skip. }
  unfold parseAgentResponse. by rewrite Hm.
Qed.

Lemma plain_text_is_speech_witness :
  parseAgentResponse (lit " [1,2,3] is an array ")
  = {| spokenText := trim (lit " [1,2,3] is an array "); codes := [] |}.
Proof.
  apply plain_text_is_speech. apply (bool_decide_unpack _). by vm_compute.
Defined.

(** X4: the cleaning does not change the verdict of the validation: a
    region is renderable exactly when the raw text between its
    brackets holds [<html] or [<!DOCTYPE]. *)
Theorem validation_ignores_cleaning text m :
  m ∈ matchAll text ->
  isHtml (cleaned m) = isHtml (slice_1_m1 m).
Proof.
  intros Hm. destruct (matchAll_from_shape _ _ _ Hm) as (body & -> & _).
  by rewrite isHtml_cleaned, slice_region.
Qed.

Lemma validation_ignores_cleaning_witness :
  let m := OPEN :: lit "```html" ++ NEWLINE :: lit "<html>```" ++ [CLOSE] in
  isHtml (cleaned m) = isHtml (slice_1_m1 m).
Proof.
  intros m. apply (validation_ignores_cleaning m m). vm_compute. by left.
Defined.

(** X5: a payload wrapped in a code fence, with a language name and a
    newline behind the opening fence and the closing fence right before
    the close bracket, is cleaned to its trimmed body. *)
Theorem fenced_payload_unwrapped lang body :
  Forall (fun c => is_word c = true) lang ->
  cleaned (OPEN :: (fence ++ lang ++ NEWLINE :: body ++ fence) ++ [CLOSE])
  = trim body.
Proof.
  intros Hl. unfold cleaned. rewrite slice_region. f_equal.
  assert (E1 : strip_open_fence (fence ++ lang ++ NEWLINE :: body ++ fence)
               = body ++ fence).
  { unfold strip_open_fence. rewrite startsWith_app.
    change (drop 3 (fence ++ ?x)) with x.
    induction Hl as [|c lang Hc _ IH]; simpl; [done|]. by rewrite Hc. }
  rewrite E1. unfold strip_close_fence, endsWith.
  rewrite reverse_app, startsWith_app, length_app. simpl.
  replace (length body + 3 - 3)%nat with (length body) by lia.
  by rewrite take_app_length.
Qed.

Lemma fenced_payload_unwrapped_witness :
  cleaned (OPEN :: (fence ++ lit "html" ++ NEWLINE
                      :: (lit "<html></html>" ++ [NEWLINE]) ++ fence)
             ++ [CLOSE])
  = trim (lit "<html></html>" ++ [NEWLINE]).
Proof.
  apply fenced_payload_unwrapped. by repeat constructor.
Defined.

(** X6: regions are handled one by one and in order: the codes of a
    text that starts, after text without open bracket, with a region
    are the code of that region, if it is renderable, followed by the
    codes of the rest. *)
Theorem codes_region_by_region pre body rest :
  OPEN ∉ pre -> CLOSE ∉ body ->
  codes (parseAgentResponse (pre ++ OPEN :: body ++ CLOSE :: rest))
  = (if isHtml body then [cleaned (OPEN :: body ++ [CLOSE])] else [])
    ++ codes (parseAgentResponse rest).
Proof.
  intros Hp Hb. rewrite !codes_filter, matchAll_first by done.
  rewrite filter_cons, isHtml_cleaned.
  destruct (isHtml body); [by rewrite decide_True|by rewrite decide_False].
Qed.

Lemma codes_region_by_region_witness :
  codes (parseAgentResponse
           (lit "one " ++ OPEN :: lit "<html>1</html>" ++ CLOSE
              :: lit " two " ++ OPEN :: lit "<html>2</html>" ++ [CLOSE]))
  = (if isHtml (lit "<html>1</html>")
     then [cleaned (OPEN :: lit "<html>1</html>" ++ [CLOSE])] else [])
    ++ codes (parseAgentResponse
                (lit " two " ++ OPEN :: lit "<html>2</html>" ++ [CLOSE])).
Proof.
  apply (codes_region_by_region (lit "one ") (lit "<html>1</html>")).
  - apply (bool_decide_unpack _). by vm_compute.
  - apply (bool_decide_unpack _). by vm_compute.
Defined.

End DemuxExtras.

(** ** Further properties of the page handlers *)

Section PageExtras.

Import Message Page Versions.

Implicit Types (st : PageState) (msg : TranscriptionMessage).

(** X7: what a message does to the versions: a final message appends
    one block per code, in order, and points the current code at the
    last of them; any other message leaves both as they are.  The
    blocks already there are never changed. *)
Theorem commit_appends_codes now msg st :
  let st' := transcriptionCallback now msg st in
  let cs := if isFinal msg then codes (parseAgentResponse (text msg))
            else [] in
  exists new,
    codeBlocks st' = codeBlocks st ++ new
    /\ html <$> new = cs
    /\ currentCode st' = from_option id (currentCode st) (last cs).
Proof.
  destruct (callback_versions now msg st) as [Hb Hcur].
  cbv zeta in *. eexists. split; [exact Hb|]. split; [|exact Hcur].
  rewrite <- list_fmap_compose. apply list_fmap_id.
Qed.

(** X8: an interim message is a snapshot: delivering it a second time
    changes nothing. *)
Theorem interim_idempotent now now' msg st :
  isFinal msg = false ->
  transcriptionCallback now' msg (transcriptionCallback now msg st)
  = transcriptionCallback now msg st.
Proof.
  intros Hf. unfold transcriptionCallback. rewrite Hf, !andb_false_r. simpl.
  by (destruct (type msg); try destruct (includes _ _)).
Qed.

Lemma interim_idempotent_witness :
  let msg := {| type := agent; text := OPEN :: lit "<!DOCTYPE html><h";
                isFinal := false; timestamp := 7 |} in
  transcriptionCallback 9 msg (transcriptionCallback 8 msg Samples.sample_page)
  = transcriptionCallback 8 msg Samples.sample_page.
Proof. intros msg. by apply interim_idempotent. Defined.

(** X9: the callback leaves the connection alone: connection flag,
    microphone flag, agent identifier and client handle are unchanged
    by every message. *)
Theorem callback_keeps_connection now msg st :
  let st' := transcriptionCallback now msg st in
  isConnected st' = isConnected st /\ isMicActive st' = isMicActive st
  /\ agentId st' = agentId st /\ agoraClientRef st' = agoraClientRef st.
Proof.
  unfold transcriptionCallback.
  set (st1 := match type msg with agent => _ | user => st end).
  set (st2 := if nonempty _ && isFinal msg then _ else st1).
  assert (H1 : isConnected st1 = isConnected st
               /\ isMicActive st1 = isMicActive st
               /\ agentId st1 = agentId st
               /\ agoraClientRef st1 = agoraClientRef st).
  { unfold st1. by (destruct (type msg); try destruct (includes _ _);
                    try destruct (negb _)). }
  assert (H2 : isConnected st2 = isConnected st1
               /\ isMicActive st2 = isMicActive st1
               /\ agentId st2 = agentId st1
               /\ agoraClientRef st2 = agoraClientRef st1).
  { unfold st2. by destruct (_ && _). }
  destruct H1 as (<- & <- & <- & <-), H2 as (<- & <- & <- & <-).
  destruct ((0 <? _)%nat && isFinal msg); [|done].
  destruct (commit_all_frame now (codes (parseAgentResponse (text msg))) st2)
    as (-> & -> & _ & -> & ->). done.
Qed.

(** X10: the generation flag follows the agent messages that hold an
    open bracket: such a message sets it while interim and clears it
    when final; a user message or a message without open bracket
    leaves it as it is. *)
Theorem generating_flag now msg st :
  let st' := transcriptionCallback now msg st in
  (type msg = user -> isGeneratingCode st' = isGeneratingCode st)
  /\ (OPEN ∉ text msg -> isGeneratingCode st' = isGeneratingCode st)
  /\ (type msg = agent -> OPEN ∈ text msg ->
      isGeneratingCode st' = negb (isFinal msg)).
Proof.
  assert (H : isGeneratingCode (transcriptionCallback now msg st)
    = match type msg with
      | agent => if includes (text msg) [OPEN] then negb (isFinal msg)
                 else isGeneratingCode st
      | user => isGeneratingCode st
      end).
  { unfold transcriptionCallback.
    set (st1 := match type msg with agent => _ | user => st end).
    set (st2 := if nonempty _ && isFinal msg then _ else st1).
    assert (H1 : isGeneratingCode st1 = match type msg with
      | agent => if includes (text msg) [OPEN] then negb (isFinal msg)
                 else isGeneratingCode st
      | user => isGeneratingCode st
      end).
    { unfold st1. by (destruct (type msg); try destruct (includes _ _);
                      try destruct (isFinal msg)). }
    assert (H2 : isGeneratingCode st2 = isGeneratingCode st1).
    { unfold st2. by destruct (_ && _). }
    destruct ((0 <? _)%nat && isFinal msg); [|congruence].
    destruct (commit_all_frame now (codes (parseAgentResponse (text msg))) st2)
      as (_ & _ & -> & _). congruence. }
  cbv zeta. rewrite H. split; [by intros ->|]. split.
  - intros Hn. destruct (includes (text msg) [OPEN]) eqn:E.
    + by apply includes_unit in E.
    + by destruct (type msg).
  - intros -> Hin. by apply includes_unit in Hin as ->.
Qed.

Lemma generating_flag_witness :
  let msg := {| type := agent; text := Samples.button_text;
                isFinal := true; timestamp := 7 |} in
  let st := setIsGeneratingCode true Samples.sample_page in
  isGeneratingCode (transcriptionCallback 8 msg st) = negb (isFinal msg).
Proof.
  intros msg st.
  apply (proj2 (proj2 (generating_flag 8 msg st))); [done|].
  apply (bool_decide_unpack _). by vm_compute.
Defined.

(** X11: a message adds at most one entry to the transcript, and none
    while interim; an entry carries the speaker of the message and a
    text that is trimmed and not empty. *)
Theorem transcript_entries now msg st :
  exists new,
    transcript (transcriptionCallback now msg st) = transcript st ++ new
    /\ (length new <= 1)%nat
    /\ (isFinal msg = false -> new = [])
    /\ Forall (fun e => entry_type e = type msg /\ entry_text e <> []
                        /\ trim (entry_text e) = entry_text e
                        /\ entry_timestamp e = now) new.
Proof.
  set (spoken := spokenText (parseAgentResponse (text msg))).
  assert (Ht : trim spoken = spoken).
  { unfold spoken, parseAgentResponse. simpl. apply trim_idempotent. }
  assert (H : transcript (transcriptionCallback now msg st)
    = transcript st ++
      (if nonempty spoken && isFinal msg
       then [{| entry_type := type msg; entry_text := spoken;
                entry_timestamp := now |}] else [])).
  { unfold transcriptionCallback. fold spoken.
    destruct (_ && isFinal msg) eqn:E1;
      rewrite ?commit_all_transcript;
      (destruct (nonempty spoken && isFinal msg); simpl;
       rewrite ?app_nil_r;
       by (destruct (type msg); try destruct (includes _ _);
           try destruct (negb _))). }
  rewrite H. destruct (nonempty spoken && isFinal msg) eqn:E.
  - apply andb_true_iff in E as [En Ef]. eexists. split; [done|].
    split; [simpl; lia|]. split; [congruence|].
    repeat constructor; simpl; try done. by destruct spoken.
  - exists []. split; [done|]. split; [simpl; lia|]. done.
Qed.

(** X12: a disconnection that rejects changes nothing at all; one that
    resolves drops the client handle; neither touches the generation
    flag nor the agent identifier. *)
Theorem disconnect_rejected_unchanged net st :
  ((handleDisconnect net st).2 = Rejected -> (handleDisconnect net st).1 = st)
  /\ ((handleDisconnect net st).2 = Resolved ->
      agoraClientRef (handleDisconnect net st).1 = None)
  /\ isGeneratingCode (handleDisconnect net st).1 = isGeneratingCode st
  /\ agentId (handleDisconnect net st).1 = agentId st.
Proof.
  unfold handleDisconnect. destruct (_ && _); [done|].
  destruct (agoraClientRef st) eqn:E;
    [destruct (client_disconnect_rejects net)|]; simpl; by rewrite ?E.
Qed.

Lemma disconnect_rejected_unchanged_witness :
  let net := {| leave_agent_rejects := true;
                client_disconnect_rejects := false |} in
  (handleDisconnect net Samples.sample_page).1 = Samples.sample_page.
Proof.
  intros net.
  by apply (proj1 (disconnect_rejected_unchanged net Samples.sample_page)).
Defined.

Lemma findIndex_spec code blocks j :
  findIndex code blocks = Some j ->
  (exists b, blocks !! j = Some b /\ html b = code)
  /\ (forall i b, (i < j)%nat -> blocks !! i = Some b -> html b <> code).
Proof.
  revert j. induction blocks as [|b blocks IH]; intros j H; [done|].
  simpl in H. destruct (JsString.eqb (html b) code) eqn:E.
  - injection H as <-. apply jsstring_eqb_eq in E. split; [by exists b|].
    intros i b' Hi. lia.
  - destruct (findIndex code blocks) as [i|]; [|done]. injection H as <-.
    destruct (IH i eq_refl) as [Hb Hlt]. split; [done|].
    intros [|k] b' Hk Hl.
    + injection Hl as <-. intros Hc. apply jsstring_eqb_eq in Hc. congruence.
    + apply (Hlt k b'); [lia|done].
Qed.

Lemma findIndex_found code blocks i b :
  blocks !! i = Some b -> html b = code ->
  exists j, findIndex code blocks = Some j /\ (j <= i)%nat.
Proof.
  revert i. induction blocks as [|b' blocks IH]; intros i Hl Hc; [done|].
  simpl. destruct (JsString.eqb (html b') code) eqn:E.
  - exists O. split; [done|lia].
  - destruct i as [|i].
    + injection Hl as ->. apply jsstring_eqb_eq in Hc. congruence.
    + destruct (IH i Hl Hc) as (j & -> & Hj). exists (S j). split; [done|lia].
Qed.

(** X13: choosing a version in the selector makes the code of that
    version the current code and changes nothing else of the page.
    The selector then shows the first version that holds the chosen
    code, which is the chosen version when no two versions hold the
    same code. *)
Theorem select_version idx st :
  (idx < length (codeBlocks st))%nat ->
  exists st' b j,
    codeBlocks st !! idx = Some b
    /\ onChange idx st = Some st'
    /\ currentCode st' = html b
    /\ (codeBlocks st' = codeBlocks st /\ transcript st' = transcript st
        /\ isConnected st' = isConnected st
        /\ isMicActive st' = isMicActive st
        /\ isGeneratingCode st' = isGeneratingCode st
        /\ agentId st' = agentId st
        /\ agoraClientRef st' = agoraClientRef st)
    /\ selected st' = Some j /\ (j <= idx)%nat
    /\ (exists b', codeBlocks st !! j = Some b' /\ html b' = html b)
    /\ (forall i bi, (i < j)%nat -> codeBlocks st !! i = Some bi ->
          html bi <> html b)
    /\ (NoDup (html <$> codeBlocks st) -> j = idx).
Proof.
  intros Hlt. destruct (lookup_lt_is_Some_2 _ _ Hlt) as [b Hb].
  unfold onChange, selected. rewrite Hb.
  destruct (findIndex_found (html b) (codeBlocks st) idx b Hb eq_refl)
    as (j & Hj & Hle).
  destruct (findIndex_spec _ _ _ Hj) as [(b' & Hb' & Hc) Hfirst].
  exists (setCurrentCode (html b) st), b, j. simpl.
  split; [done|]. split; [done|]. split; [done|]. split; [done|].
  split; [done|]. split; [done|]. split; [by exists b'|].
  split; [exact Hfirst|].
  intros Hnd. eapply NoDup_lookup; [exact Hnd| |].
  - by rewrite list_lookup_fmap, Hb'.
  - rewrite list_lookup_fmap, Hb. simpl. by rewrite Hc.
Qed.

(** Two versions with the same code: choosing the second one makes the
    selector show the first. *)
Lemma select_version_witness :
  let st := foldl (commit 8) Samples.sample_page
              [lit "<html>a</html>"; lit "<html>b</html>";
               lit "<html>a</html>"] in
  exists st' b j,
    codeBlocks st !! 2%nat = Some b
    /\ onChange 2 st = Some st'
    /\ currentCode st' = html b
    /\ (codeBlocks st' = codeBlocks st /\ transcript st' = transcript st
        /\ isConnected st' = isConnected st
        /\ isMicActive st' = isMicActive st
        /\ isGeneratingCode st' = isGeneratingCode st
        /\ agentId st' = agentId st
        /\ agoraClientRef st' = agoraClientRef st)
    /\ selected st' = Some j /\ (j <= 2)%nat
    /\ (exists b', codeBlocks st !! j = Some b' /\ html b' = html b)
    /\ (forall i bi, (i < j)%nat -> codeBlocks st !! i = Some bi ->
          html bi <> html b)
    /\ (NoDup (html <$> codeBlocks st) -> j = 2%nat).
Proof. intros st. apply (select_version 2 st). simpl. lia. Defined.

End PageExtras.

(** ** Further properties of the RTM listener *)

Section ListenerExtras.

Import Message Rtm.

Context {Σ : Type}.
Variable JSON_parse : jsval -> option jsval.
Variable channel : jsstring.
Variable onTranscription : option (TranscriptionMessage -> Σ -> Σ * option exn).
Variable now : N.

Implicit Types (event : RtmEvent) (w : World Σ) (data v : jsval)
  (frag : TranscriptionMessage).

Lemma strict_eq_string v (s : jsstring) :
  strict_eq v (JString s) = true <-> v = JString s.
Proof.
  split; [|intros ->; by apply jsstring_eqb_eq].
  destruct v; try done. simpl. by intros ->%jsstring_eqb_eq.
Qed.

Lemma produced_fragment event w data frag :
  parse_message JSON_parse (message event) = inr data ->
  calls (onMessage JSON_parse channel onTranscription now event w).1
  = calls w ++ [frag] ->
  exists s, extracted_text data = JString s /\ s <> []
            /\ frag = fragment now data s.
Proof.
  intros Hp Hc. destruct (listener_calls JSON_parse channel onTranscription
                            now event w) as [_ H]. cbv zeta in H.
  destruct H as [[H _]|(data' & s & cb & _ & Hp' & Hx & Hs & _ & H & _)].
  - rewrite H in Hc. rewrite <- (app_nil_r (calls w)) in Hc at 1.
    by apply app_inv_head in Hc.
  - rewrite Hp in Hp'. injection Hp' as <-.
    rewrite H in Hc. apply app_inv_head in Hc. injection Hc as <-.
    by exists s.
Qed.

(** X14: the listener throws on its first line only, when
    [JSON.stringify] rejects the event, and then nothing is logged and
    nothing delivered; an event that can be logged never makes it
    throw, whatever its message holds and whatever the callback does.
    One event makes at most one call to the callback. *)
Theorem listener_throws_on_logging_only (d : Delivery.Delivered) w :
  let r := Delivery.listener JSON_parse channel onTranscription now d w in
  (r.2 = inr tt <-> Delivery.stringifies d = true)
  /\ (Delivery.stringifies d = false -> r = (w, inl TypeError))
  /\ exists new, calls r.1 = calls w ++ new /\ (length new <= 1)%nat.
Proof.
  unfold Delivery.listener. destruct (Delivery.stringifies d).
  - destruct (listener_calls JSON_parse channel onTranscription now
                (Delivery.event_of d) w) as [Hr H]. cbv zeta in H.
    split; [done|]. split; [done|].
    destruct H as [[H _]|(data & s & cb & _ & _ & _ & _ & _ & H & _)].
    + exists []. rewrite app_nil_r. split; [done|simpl; lia].
    + exists [fragment now data s]. split; [done|simpl; lia].
  - split; [done|]. split; [done|].
    exists []. rewrite app_nil_r. split; [done|simpl; lia].
Qed.

(** X15: a fragment is attributed to the agent exactly when the
    [object] of the message is ["assistant.transcription"]; every other
    message that is delivered, a message without [object] included,
    counts as the user's.  The fragment is stamped with the clock. *)
Theorem speaker_attribution event w data frag :
  parse_message JSON_parse (message event) = inr data ->
  calls (onMessage JSON_parse channel onTranscription now event w).1
  = calls w ++ [frag] ->
  (type frag = agent
   <-> field data "object" = JString (lit "assistant.transcription"))
  /\ (type frag = user
      <-> field data "object" <> JString (lit "assistant.transcription"))
  /\ timestamp frag = now.
Proof.
  intros Hp Hc. destruct (produced_fragment _ _ _ _ Hp Hc) as (s & _ & _ & ->).
  cbn [type timestamp fragment]. rewrite <- strict_eq_string.
  destruct (strict_eq _ _); repeat split; done.
Qed.

(** X16: the text of a fragment is the first of [text], [words] and
    [transcription] that is truthy. *)
Theorem text_field_priority event w data frag :
  parse_message JSON_parse (message event) = inr data ->
  calls (onMessage JSON_parse channel onTranscription now event w).1
  = calls w ++ [frag] ->
  (truthy (field data "text") = true ->
   JString (text frag) = field data "text")
  /\ (truthy (field data "text") = false ->
      truthy (field data "words") = true ->
      JString (text frag) = field data "words")
  /\ (truthy (field data "text") = false ->
      truthy (field data "words") = false ->
      JString (text frag) = field data "transcription").
Proof.
  intros Hp Hc. destruct (produced_fragment _ _ _ _ Hp Hc) as (s & Hx & Hs & ->).
  cbn [text fragment]. rewrite <- Hx. unfold extracted_text, or_else in *.
  repeat split.
  - by intros ->.
  - by intros -> ->.
  - intros Ht Hw. rewrite Ht, Hw in *.
    destruct (truthy (field data "transcription")); [done|].
    injection Hx as <-. done.
Qed.

(** X17: a parsed message that carries neither of the two tags nor a
    truthy [words] or [text] is not a transcription: it is ignored
    without an error, a [transcription] field alone does not make it
    one. *)
Theorem untagged_message_ignored event w data :
  foreign channel event = false ->
  parse_message JSON_parse (message event) = inr data ->
  nullish data = false ->
  field data "object" <> JString (lit "assistant.transcription") ->
  field data "object" <> JString (lit "user.transcription") ->
  truthy (field data "words") = false ->
  truthy (field data "text") = false ->
  onMessage JSON_parse channel onTranscription now event w
  = (mkWorld (console w ++ [LogRtmMessage; LogParsedData]) (calls w) (ui w),
     inr tt).
Proof.
  intros Hfo Hp Hn Ha Hu Hw Ht.
  assert (Hi : is_transcription data = false).
  { unfold is_transcription. rewrite Hw, Ht, !orb_false_r.
    apply orb_false_iff. split; apply not_true_is_false;
      by intros ?%strict_eq_string. }
  unfold onMessage, try_catch, listener_body, mbind, M_bind, bind, lift.
  cbn [log]. rewrite Hfo, Hp.
  unfold handle_data, mbind, M_bind, bind, lift, get, log.
  rewrite Hn. cbn. rewrite Hi. unfold ret. by rewrite <- app_assoc.
Qed.

(** X18: a tagged message whose text is truthy without being a string,
    a number say, is dropped: reading [substring] off it throws, the
    error is logged and the callback is not called. *)
Theorem non_string_text_dropped event w data :
  foreign channel event = false ->
  parse_message JSON_parse (message event) = inr data ->
  nullish data = false ->
  is_transcription data = true ->
  (forall s, extracted_text data <> JString s) ->
  onMessage JSON_parse channel onTranscription now event w
  = (mkWorld (console w ++ [LogRtmMessage; LogParsedData; ErrFailedToParse])
       (calls w) (ui w),
     inr tt).
Proof.
  intros Hfo Hp Hn Hi Hx.
  unfold onMessage, try_catch, listener_body, mbind, M_bind, bind, lift.
  cbn [log]. rewrite Hfo, Hp.
  unfold handle_data, mbind, M_bind, bind, lift, get, log.
  rewrite Hn. cbn. rewrite Hi.
  destruct (extracted_text data) eqn:E; try by (cbn; rewrite <- !app_assoc).
  by destruct (Hx s).
Qed.

End ListenerExtras.

Section ListenerAndPage.

Import Message Page Rtm Samples.

Variable JSON_parse : jsval -> option jsval.
Variable channel : jsstring.
Variable now : N.

(** X19: without a callback nothing is delivered: no call is recorded
    and the state of the user of the client does not change. *)
Theorem no_callback_no_delivery {Σ} (event : RtmEvent) (w : World Σ) :
  calls (onMessage JSON_parse channel None now event w).1 = calls w
  /\ ui (onMessage JSON_parse channel None now event w).1 = ui w.
Proof.
  destruct (listener_calls JSON_parse channel None now event w) as [_ H].
  cbv zeta in H.
  by destruct H as [H|(data & s & cb & _ & _ & _ & _ & Hcb & _)].
Qed.

Lemma callback_grows t msg st :
  codeBlocks st `prefix_of` codeBlocks (transcriptionCallback t msg st)
  /\ transcript st `prefix_of` transcript (transcriptionCallback t msg st)
  /\ (isFinal msg = false ->
      codeBlocks (transcriptionCallback t msg st) = codeBlocks st
      /\ transcript (transcriptionCallback t msg st) = transcript st
      /\ currentCode (transcriptionCallback t msg st) = currentCode st).
Proof.
  unfold transcriptionCallback.
  set (st1 := match type msg with agent => _ | user => st end).
  set (st2 := if nonempty _ && isFinal msg then _ else st1).
  assert (H1 : codeBlocks st1 = codeBlocks st
               /\ transcript st1 = transcript st
               /\ currentCode st1 = currentCode st).
  { unfold st1. by (destruct (type msg); try destruct (includes _ _);
                    try destruct (negb _)). }
  assert (H2 : codeBlocks st2 = codeBlocks st1
               /\ transcript st1 `prefix_of` transcript st2
               /\ currentCode st2 = currentCode st1
               /\ (isFinal msg = false -> transcript st2 = transcript st1)).
  { unfold st2. destruct (nonempty _) ; simpl; [|done].
    destruct (isFinal msg); [|done]. repeat split; try done.
    by apply prefix_app_r. }
  destruct H1 as (<- & <- & <-), H2 as (<- & Hp & <- & Hf).
  destruct (isFinal msg); rewrite ?andb_true_r, ?andb_false_r.
  - split; [|split; [|done]].
    + destruct (0 <? _)%nat; [|done].
      rewrite commit_all_codeBlocks. by apply prefix_app_r.
    + destruct (0 <? _)%nat; [|done]. by rewrite commit_all_transcript.
  - rewrite Hf by done. done.
Qed.

(** X20: the listener wired to the page: whatever the event, the code
    versions and the transcript of the page only grow at their end, and
    an event whose message is not final by either signal changes
    neither of them nor the current code. *)
Theorem page_only_grows (event : RtmEvent) (w : World PageState) :
  let w' := (onMessage JSON_parse channel (page_callback now) now event w).1 in
  codeBlocks (ui w) `prefix_of` codeBlocks (ui w')
  /\ transcript (ui w) `prefix_of` transcript (ui w')
  /\ (forall data,
        parse_message JSON_parse (message event) = inr data ->
        finality data = false ->
        codeBlocks (ui w') = codeBlocks (ui w)
        /\ transcript (ui w') = transcript (ui w)
        /\ currentCode (ui w') = currentCode (ui w)).
Proof.
  destruct (listener_calls JSON_parse channel (page_callback now) now event w)
    as [_ H]. cbv zeta in *.
  destruct H as [[_ ->]|(data & s & cb & _ & Hp & _ & _ & Hcb & _ & ->)];
    [done|].
  injection Hcb as <-. cbn [fst].
  destruct (callback_grows now (fragment now data s) (ui w)) as (H1 & H2 & H3).
  split; [done|]. split; [done|].
  intros data' Hp' Hf. rewrite Hp in Hp'. injection Hp' as <-.
  by apply H3.
Qed.

End ListenerAndPage.

(** ** The further properties of the listener on sample events *)

Section MoreSampleEvents.

Import Message Page Rtm Samples MoreSamples.

Lemma speaker_attribution_witness :
  let data := transcription_object (JString (lit "hi")) in
  (type hi_fragment = agent
   <-> field data "object" = JString (lit "assistant.transcription"))
  /\ (type hi_fragment = user
      <-> field data "object" <> JString (lit "assistant.transcription"))
  /\ timestamp hi_fragment = 8.
Proof.
  intros data.
  apply (speaker_attribution sample_parse (lit "room") (page_callback 8) 8
           (untagged data) sample_world data hi_fragment).
  - vm_compute. reflexivity.
  - vm_compute. reflexivity.
Defined.

Lemma text_field_priority_witness :
  let data := transcription_object (JString (lit "hi")) in
  JString (text hi_fragment) = field data "text".
Proof.
  intros data.
  apply (proj1 (text_field_priority sample_parse (lit "room")
                  (page_callback 8) 8 (untagged data) sample_world data
                  hi_fragment ltac:(vm_compute; reflexivity)
                  ltac:(vm_compute; reflexivity))).
  vm_compute. reflexivity.
Defined.

Lemma untagged_message_ignored_witness :
  onMessage sample_parse (lit "room") (page_callback 8) 8
    (untagged transcription_only) sample_world
  = (mkWorld [LogRtmMessage; LogParsedData] [] sample_page, inr tt).
Proof.
  apply (untagged_message_ignored sample_parse (lit "room") (page_callback 8)
           8 (untagged transcription_only) sample_world transcription_only).
  - vm_compute. reflexivity.
  - vm_compute. reflexivity.
  - reflexivity.
  - vm_compute. discriminate.
  - vm_compute. discriminate.
  - vm_compute. reflexivity.
  - vm_compute. reflexivity.
Defined.

Lemma non_string_text_dropped_witness :
  let data := transcription_object (JNumber 5) in
  onMessage sample_parse (lit "room") (page_callback 8) 8
    (untagged data) sample_world
  = (mkWorld [LogRtmMessage; LogParsedData; ErrFailedToParse] [] sample_page,
     inr tt).
Proof.
  intros data.
  apply (non_string_text_dropped sample_parse (lit "room") (page_callback 8)
           8 (untagged data) sample_world data).
  - vm_compute. reflexivity.
  - vm_compute. reflexivity.
  - reflexivity.
  - vm_compute. reflexivity.
  - intros s. vm_compute. discriminate.
Defined.

Lemma page_only_grows_witness :
  let data := interim_object (JString button_text) in
  let w' := (onMessage sample_parse (lit "room") (page_callback 8) 8
               (untagged data) sample_world).1 in
  codeBlocks (ui w') = codeBlocks (ui sample_world)
  /\ transcript (ui w') = transcript (ui sample_world)
  /\ currentCode (ui w') = currentCode (ui sample_world).
Proof.
  intros data w'.
  apply (proj2 (proj2 (page_only_grows sample_parse (lit "room") 8
                         (untagged data) sample_world)) data).
  - vm_compute. reflexivity.
  - vm_compute. reflexivity.
Defined.

End MoreSampleEvents.

(** ** Properties of the client object *)

Section ClientProperties.

Import Client.

Implicit Types (sdk : Sdk) (st : ClientState).



(** X22: [setMuted] without a microphone track does nothing and
    resolves; with a track, and [setEnabled] resolving, [isMuted]
    answers what was asked for and the microphone stays active; when
    [setEnabled] rejects nothing changes. *)
Theorem setMuted_then_isMuted sdk muted st :
  (isMicActive st = false -> setMuted sdk muted st = (st, Page.Resolved))
  /\ (isMicActive st = true -> setEnabled_ok sdk = true ->
      (setMuted sdk muted st).2 = Page.Resolved
      /\ isMuted (setMuted sdk muted st).1 = muted
      /\ isMicActive (setMuted sdk muted st).1 = true
      /\ client (setMuted sdk muted st).1 = client st
      /\ rtmClient (setMuted sdk muted st).1 = rtmClient st)
  /\ (isMicActive st = true -> setEnabled_ok sdk = false ->
      setMuted sdk muted st = (st, Page.Rejected)).
Proof.
  unfold setMuted, isMicActive, isMuted.
  destruct (localAudioTrack st) as [t|] eqn:E; split; try done.
  split; intros _ ->; [|done]. simpl. by rewrite negb_involutive.
Qed.

Lemma setMuted_then_isMuted_witness :
  let sdk := {| join_ok := true; leave_ok := true; publish_ok := true;
                createMicrophoneAudioTrack_ok := true; setEnabled_ok := true;
                rtm_new_ok := true; login_ok := true; subscribe_ok := true;
                unsubscribe_ok := true; logout_ok := true |} in
  let st := {| client := Some {| joined := true |}; rtmClient := None;
               localAudioTrack := Some {| enabled := true |} |} in
  isMuted (setMuted sdk true st).1 = true.
Proof.
  intros sdk st.
  by apply (proj1 (proj2 (proj1 (proj2 (setMuted_then_isMuted sdk true st))
                            eq_refl eq_refl))).
Defined.

(** X23: [stopMicrophone] is idempotent, leaves both clients alone,
    and after it the microphone is inactive and reported muted; a
    client without track is always reported muted. *)
Theorem stopMicrophone_idempotent st :
  stopMicrophone (stopMicrophone st) = stopMicrophone st
  /\ isMicActive (stopMicrophone st) = false
  /\ isMuted (stopMicrophone st) = true
  /\ client (stopMicrophone st) = client st
  /\ rtmClient (stopMicrophone st) = rtmClient st
  /\ (isMicActive st = false -> isMuted st = true /\ stopMicrophone st = st).
Proof.
  unfold stopMicrophone, isMicActive, isMuted.
  destruct (localAudioTrack st) as [t|] eqn:E; simpl; rewrite ?E; done.
Qed.

(** X24: [initializeRTM] on a client without RTM handle: the message
    listener is registered exactly when the constructor, [login] and
    [subscribe] all succeed, and then the client is logged in and
    subscribed; a failed [login] or [subscribe] still leaves an RTM
    handle behind; the RTC client and the track are not touched. *)
Theorem initializeRTM_listens sdk st :
  rtmClient st = None ->
  ((exists r, rtmClient (initializeRTM sdk st) = Some r
              /\ listening r = true)
   <-> rtm_new_ok sdk = true /\ login_ok sdk = true
       /\ subscribe_ok sdk = true)
  /\ (forall r, rtmClient (initializeRTM sdk st) = Some r ->
        listening r = true -> loggedIn r = true /\ subscribed r = true)
  /\ (rtmClient (initializeRTM sdk st) = None <-> rtm_new_ok sdk = false)
  /\ client (initializeRTM sdk st) = client st
  /\ localAudioTrack (initializeRTM sdk st) = localAudioTrack st.
Proof.
  intros Hn. unfold initializeRTM.
  destruct (rtm_new_ok sdk), (login_ok sdk), (subscribe_ok sdk); simpl;
    rewrite ?Hn;
    (split; [split; [intros (r & ? & ?)|intros (? & ? & ?)]|
     split; [intros r ? ?|split; [split; intros ?|]]]);
    simplify_eq/=; eauto.
Qed.

Lemma initializeRTM_listens_witness :
  let sdk := {| join_ok := true; leave_ok := true; publish_ok := true;
                createMicrophoneAudioTrack_ok := true; setEnabled_ok := true;
                rtm_new_ok := true; login_ok := false; subscribe_ok := true;
                unsubscribe_ok := true; logout_ok := true |} in
  rtmClient (initializeRTM sdk constructed) = None <-> rtm_new_ok sdk = false.
Proof.
  intros sdk.
  by apply (proj1 (proj2 (proj2 (initializeRTM_listens sdk constructed
                                   eq_refl)))).
Defined.

(** X25: [initialize] stores the RTC client before it joins: it rejects
    exactly when [join] rejects, and [isConnected] answers [true]
    afterwards either way; after a rejected [join] the client is not
    joined and RTM is not set up. *)
Theorem initialize_stores_client_first sdk st :
  isConnected (initialize sdk st).1 = true
  /\ ((initialize sdk st).2 = Page.Rejected <-> join_ok sdk = false)
  /\ (join_ok sdk = false ->
      client (initialize sdk st).1 = Some {| joined := false |}
      /\ rtmClient (initialize sdk st).1 = rtmClient st)
  /\ (join_ok sdk = true ->
      client (initialize sdk st).1 = Some {| joined := true |})
  /\ localAudioTrack (initialize sdk st).1 = localAudioTrack st.
Proof.
  unfold initialize, initializeRTM, isConnected.
  destruct (join_ok sdk), (rtm_new_ok sdk), (login_ok sdk),
    (subscribe_ok sdk); simpl; repeat split; done.
Qed.

Lemma initialize_stores_client_first_witness :
  let sdk := {| join_ok := false; leave_ok := true; publish_ok := true;
                createMicrophoneAudioTrack_ok := true; setEnabled_ok := true;
                rtm_new_ok := true; login_ok := true; subscribe_ok := true;
                unsubscribe_ok := true; logout_ok := true |} in
  client (initialize sdk constructed).1 = Some {| joined := false |}
  /\ rtmClient (initialize sdk constructed).1 = rtmClient constructed.
Proof.
  intros sdk.
  by apply (proj1 (proj2 (proj2 (initialize_stores_client_first sdk
                                   constructed)))).
Defined.

(** X26: [startMicrophone] stores the track as soon as it is created:
    it resolves exactly when the track is created, there is an RTC
    client and [publish] resolves, but once the track is created the
    microphone is reported active and not muted even if the method
    rejects; when the creation rejects nothing changes. *)
Theorem startMicrophone_stores_track_first sdk st :
  ((startMicrophone sdk st).2 = Page.Resolved
   <-> createMicrophoneAudioTrack_ok sdk = true /\ isConnected st = true
       /\ publish_ok sdk = true)
  /\ (createMicrophoneAudioTrack_ok sdk = true ->
      isMicActive (startMicrophone sdk st).1 = true
      /\ isMuted (startMicrophone sdk st).1 = false)
  /\ (createMicrophoneAudioTrack_ok sdk = false ->
      (startMicrophone sdk st).1 = st)
  /\ client (startMicrophone sdk st).1 = client st.
Proof.
  unfold startMicrophone, isConnected, isMicActive, isMuted.
  destruct (createMicrophoneAudioTrack_ok sdk), (client st) eqn:E,
    (publish_ok sdk); simpl; rewrite ?E; repeat split; try done;
    by intros (? & ? & ?).
Qed.

Lemma startMicrophone_stores_track_first_witness :
  let sdk := {| join_ok := true; leave_ok := true; publish_ok := true;
                createMicrophoneAudioTrack_ok := true; setEnabled_ok := true;
                rtm_new_ok := true; login_ok := true; subscribe_ok := true;
                unsubscribe_ok := true; logout_ok := true |} in
  (startMicrophone sdk constructed).2 = Page.Rejected
  /\ isMicActive (startMicrophone sdk constructed).1 = true
  /\ isMuted (startMicrophone sdk constructed).1 = false.
Proof.
  intros sdk. split; [done|].
  by apply (proj1 (proj2 (startMicrophone_stores_track_first sdk
                            constructed))).
Defined.

End ClientProperties.

(** ** Properties of [formatHTML] *)

Section FormatProperties.

Import Format.

Implicit Types (s t cur body rest html token : jsstring) (c : char).

Lemma takeWhile_dropWhile (f : char -> bool) s :
  s = takeWhile f s ++ dropWhile f s.
Proof.
  induction s as [|c s IH]; [done|]. simpl.
  destruct (f c); [|done]. simpl. by rewrite <- IH.
Qed.

Lemma match_tag_Some s body rest :
  match_tag s = Some (body, rest) -> s = body ++ GT :: rest /\ body <> [].
Proof.
  unfold match_tag. intros H.
  pose proof (takeWhile_dropWhile not_gt s) as E.
  pose proof (dropWhile_head not_gt s) as Hd.
  destruct (takeWhile not_gt s) as [|b body']; [done|].
  destruct (dropWhile not_gt s) as [|g rest']; [done|].
  injection H as <- <-. split; [|done].
  unfold not_gt in Hd. apply negb_false_iff, N.eqb_eq in Hd as ->. done.
Qed.

(** The tokens of the split, put together, are the text. *)
Lemma split_from_join fuel : forall cur s,
  mjoin (split_from fuel cur s) = cur ++ s.
Proof.
  induction fuel as [|fuel IH]; intros cur s; simpl.
  - by rewrite app_nil_r.
  - destruct s as [|c s]; [simpl; by rewrite !app_nil_r|].
    destruct (N.eqb_spec c LT) as [->|_].
    + destruct (match_tag s) as [[body rest]|] eqn:Hm.
      * apply match_tag_Some in Hm as [-> _]. simpl.
        rewrite IH. simpl. f_equal. by rewrite <- app_assoc.
      * rewrite IH. by rewrite <- app_assoc.
    + rewrite IH. by rewrite <- app_assoc.
Qed.

Lemma split_from_plain fuel : forall cur s,
  LT ∉ s -> split_from fuel cur s = [cur ++ s].
Proof.
  induction fuel as [|fuel IH]; intros cur s H; simpl; [done|].
  destruct s as [|c s]; [by rewrite app_nil_r|].
  apply not_elem_of_cons in H as [Hc H].
  destruct (N.eqb_spec c LT) as [->|_]; [done|].
  rewrite IH by done. by rewrite <- app_assoc.
Qed.

Lemma squeeze_app s t : squeeze (s ++ t) = squeeze s ++ squeeze t.
Proof. apply filter_app. Qed.

Lemma squeeze_ws s : Forall (fun c => is_ws c = true) s -> squeeze s = [].
Proof.
  induction 1 as [|c s Hc _ IH]; [done|].
  change (squeeze (c :: s)) with (filter (fun c => is_ws c = false) (c :: s)).
  rewrite filter_cons, decide_False; [done|]. by rewrite Hc.
Qed.

Lemma squeeze_trim s : squeeze (trim s) = squeeze s.
Proof.
  destruct (trim_split s) as (a & b & E & Ha & Hb). rewrite E at 2.
  by rewrite !squeeze_app, (squeeze_ws a), (squeeze_ws b), app_nil_r.
Qed.

Lemma squeeze_repeat_tab n : squeeze (repeat_tab n) = [].
Proof.
  induction n as [|n IH]; [done|].
  change (repeat_tab (S n)) with (tab ++ repeat_tab n).
  by rewrite squeeze_app, IH.
Qed.

Lemma squeeze_emit formatted n piece :
  squeeze (emit formatted n piece) = squeeze formatted ++ squeeze piece.
Proof.
  unfold emit. rewrite squeeze_app. f_equal.
  change (NEWLINE :: repeat_tab n ++ piece)
    with ([NEWLINE] ++ repeat_tab n ++ piece).
  by rewrite !squeeze_app, squeeze_repeat_tab.
Qed.

Lemma trim_nil_ws s : trim s = [] -> Forall (fun c => is_ws c = true) s.
Proof.
  intros H. destruct (trim_split s) as (a & b & E & Ha & Hb).
  rewrite H in E. rewrite E. by apply Forall_app.
Qed.

Lemma squeeze_format_step formatted n token :
  squeeze (format_step (formatted, n) token).1
  = squeeze formatted ++ squeeze token.
Proof.
  unfold format_step. destruct (trim token) as [|c t] eqn:E.
  - simpl. by rewrite (squeeze_ws token (trim_nil_ws _ E)), app_nil_r.
  - destruct (startsWith token (lit "</")); [apply squeeze_emit|].
    destruct (_ && _); cbn [fst]; rewrite squeeze_emit; [done|].
    by rewrite <- E, squeeze_trim.
Qed.

Lemma squeeze_format_all tokens : forall formatted n,
  squeeze (foldl format_step (formatted, n) tokens).1
  = squeeze formatted ++ squeeze (mjoin tokens).
Proof.
  induction tokens as [|token tokens IH]; intros formatted n.
  - simpl. by rewrite app_nil_r.
  - change (foldl format_step (formatted, n) (token :: tokens))
      with (foldl format_step (format_step (formatted, n) token) tokens).
    pose proof (squeeze_format_step formatted n token) as H.
    destruct (format_step (formatted, n) token) as [f' n'].
    rewrite IH. cbn [fst] in H. rewrite H.
    change (mjoin (token :: tokens)) with (token ++ mjoin tokens).
    by rewrite squeeze_app, app_assoc.
Qed.

(** X27: formatting only moves white space: the formatted text and the
    text hold the same code units, in the same order, once white space
    is left out. *)
Theorem formatHTML_keeps_content html :
  squeeze (formatHTML html) = squeeze html.
Proof.
  unfold formatHTML, split. rewrite squeeze_trim, squeeze_format_all.
  by rewrite split_from_join.
Qed.

Lemma trim_cons_ws c s : is_ws c = true -> trim (c :: s) = trim s.
Proof. intros H. unfold trim, trimStart. simpl. by rewrite H. Qed.

(** X28: a text without [<] is one text token: it is returned trimmed,
    and as the empty string when it is empty or all white space. *)
Theorem formatHTML_plain html :
  LT ∉ html -> formatHTML html = trim html.
Proof.
  intros H. unfold formatHTML, split. rewrite split_from_plain by done.
  cbn [foldl app]. unfold format_step.
  destruct (trim html) as [|c t] eqn:E; [done|].
  assert (H1 : startsWith html (lit "</") = false).
  { destruct html as [|x html]; [done|].
    apply not_elem_of_cons in H as [Hx _].
    change (lit "</") with (LT :: lit "/").
    apply startsWith_head_ne. congruence. }
  assert (H2 : startsWith html (lit "<") = false).
  { destruct html as [|x html]; [done|].
    apply not_elem_of_cons in H as [Hx _].
    change (lit "<") with (LT :: []).
    apply startsWith_head_ne. congruence. }
  rewrite H1, H2. cbn [andb fst]. unfold emit.
  change (repeat_tab 0) with (@nil char). cbn [app].
  rewrite trim_cons_ws by done. rewrite <- E. apply trim_idempotent.
Qed.

Lemma formatHTML_plain_witness :
  formatHTML (lit "  a > b  ") = trim (lit "  a > b  ").
Proof.
  apply formatHTML_plain. apply (bool_decide_unpack _). by vm_compute.
Defined.

Lemma takeWhile_stop (f : char -> bool) a c s :
  Forall (fun x => f x = true) a -> f c = false ->
  takeWhile f (a ++ c :: s) = a /\ dropWhile f (a ++ c :: s) = c :: s.
Proof.
  intros Ha Hc. induction Ha as [|x a Hx _ [IH1 IH2]]; simpl.
  - by rewrite Hc.
  - by rewrite Hx, IH1, IH2.
Qed.

Lemma match_tag_here body rest :
  body <> [] -> GT ∉ body ->
  match_tag (body ++ GT :: rest) = Some (body, rest).
Proof.
  intros Hne Hb. unfold match_tag.
  destruct (takeWhile_stop not_gt body GT rest) as [-> ->]; [|done|].
  - apply Forall_forall. intros x Hx. unfold not_gt.
    apply negb_true_iff, N.eqb_neq. by intros ->.
  - by destruct body.
Qed.

Lemma split_from_fuel f1 : forall f2 cur s,
  (length s <= f1)%nat -> (length s <= f2)%nat ->
  split_from f1 cur s = split_from f2 cur s.
Proof.
  induction f1 as [|f1 IH]; intros [|f2] cur [|c s] H1 H2; simpl in *;
    rewrite ?app_nil_r; try done; try lia.
  destruct (c =? LT); [|apply IH; lia].
  destruct (match_tag s) as [[body rest]|] eqn:Hm; [|apply IH; lia].
  apply match_tag_Some in Hm as [-> _]. rewrite length_app in *.
  simpl in *. do 2 f_equal. apply IH; lia.
Qed.

Lemma split_from_step fuel cur c s :
  c <> LT -> split_from (S fuel) cur (c :: s) = split_from fuel (cur ++ [c]) s.
Proof. intros Hc. simpl. by apply N.eqb_neq in Hc as ->. Qed.

(** The split, token by token: text up to a tag, then the tag. *)
Lemma split_from_text fuel x : forall cur s,
  LT ∉ x -> (length (x ++ s) <= fuel)%nat ->
  split_from fuel cur (x ++ s) = split_from fuel (cur ++ x) s.
Proof.
  revert fuel. induction x as [|c x IH]; intros fuel cur s Hx Hlen.
  - by rewrite app_nil_r.
  - apply not_elem_of_cons in Hx as [Hc Hx].
    destruct fuel as [|fuel]; [simpl in Hlen; lia|].
    simpl in Hlen. rewrite <- app_comm_cons.
    rewrite split_from_step by congruence.
    rewrite IH by (done || lia). rewrite <- app_assoc.
    apply split_from_fuel; rewrite length_app in Hlen; lia.
Qed.

Lemma split_from_tag fuel cur body rest :
  body <> [] -> GT ∉ body ->
  (length (LT :: body ++ GT :: rest) <= fuel)%nat ->
  split_from fuel cur (LT :: body ++ GT :: rest)
  = cur :: (LT :: body ++ [GT]) :: split_from fuel [] rest.
Proof.
  intros Hne Hb Hlen. destruct fuel as [|fuel]; [simpl in Hlen; lia|].
  assert (E : split_from (S fuel) cur (LT :: body ++ GT :: rest)
              = cur :: (LT :: body ++ [GT]) :: split_from fuel [] rest).
  { simpl. by rewrite match_tag_here. }
  rewrite E. do 2 f_equal.
  simpl in Hlen. rewrite length_app in Hlen. simpl in Hlen.
  apply split_from_fuel; lia.
Qed.

Lemma trim_fixed c m d :
  is_ws c = false -> is_ws d = false -> trim (c :: m ++ [d]) = c :: m ++ [d].
Proof.
  intros Hc Hd. unfold trim, trimEnd, trimStart.
  rewrite (dropWhile_fixed is_ws (c :: m ++ [d])) by done.
  change (c :: m ++ [d]) with ((c :: m) ++ [d]).
  rewrite reverse_app. rewrite dropWhile_fixed by done.
  by rewrite <- reverse_app, reverse_involutive.
Qed.

Lemma not_self_closing name :
  name <> [] -> last name <> Some 47 ->
  endsWith (LT :: name ++ [GT]) (lit "/>") = false.
Proof.
  intros Hne Hlast. destruct name as [|n name _] using rev_ind; [done|].
  rewrite last_snoc in Hlast. unfold endsWith.
  change (reverse (lit "/>")) with [GT; 47].
  replace (LT :: (name ++ [n]) ++ [GT]) with ((LT :: name) ++ [n; GT])
    by (simpl; by rewrite <- app_assoc).
  rewrite reverse_app.
  change (reverse [n; GT]) with [GT; n]. cbn [app startsWith].
  destruct (N.eqb_spec n 47) as [->|_]; [done|]. by rewrite andb_false_r.
Qed.

(** X29: an element that holds text only is laid out on three lines:
    the opening tag, the trimmed text one level in, the closing tag
    back at the level of the opening tag. *)
Theorem formatHTML_element name text cname :
  name <> [] -> GT ∉ name ->
  head name <> Some 47 -> last name <> Some 47 ->
  is_void (LT :: name ++ [GT]) = false ->
  LT ∉ text -> trim text <> [] -> GT ∉ cname ->
  formatHTML ((LT :: name ++ [GT]) ++ text ++ LT :: 47 :: cname ++ [GT])
  = (LT :: name ++ [GT]) ++ NEWLINE :: tab ++ trim text
    ++ NEWLINE :: LT :: 47 :: cname ++ [GT].
Proof.
  intros Hne Hgt Hhead Hlast Hvoid Hlt Htrim Hc.
  set (opening := LT :: name ++ [GT]).
  set (closing := LT :: 47 :: cname ++ [GT]).
  assert (Hsplit : split (opening ++ text ++ closing)
                   = [[]; opening; text; closing; []]).
  { unfold split, opening, closing.
    replace ((LT :: name ++ [GT]) ++ text ++ LT :: 47 :: cname ++ [GT])
      with (LT :: name ++ GT :: (text ++ LT :: (47 :: cname) ++ GT :: []))
      by (simpl; by rewrite <- !app_assoc).
    rewrite split_from_tag by done. do 2 f_equal.
    rewrite split_from_text;
      [|done|repeat (rewrite length_app || cbn [length app]); lia].
    rewrite split_from_tag; [done|done| |].
    - apply not_elem_of_cons. split; [done|done].
    - repeat (rewrite length_app || cbn [length app]).
      unfold jsstring, char in *. lia. }
  assert (Ho : trim opening = opening) by by apply trim_fixed.
  assert (Hcl : trim closing = closing).
  { unfold closing. change (LT :: 47 :: cname ++ [GT])
      with (LT :: (47 :: cname) ++ [GT]). by apply trim_fixed. }
  assert (Ho1 : startsWith opening (lit "</") = false).
  { unfold opening. destruct name as [|n name]; [done|].
    change (lit "</") with [LT; 47]. simpl.
    destruct (N.eqb_spec n 47) as [->|_]; [by destruct Hhead|done]. }
  assert (Ho2 : endsWith opening (lit "/>") = false)
    by by apply not_self_closing.
  assert (Ht1 : startsWith text (lit "</") = false
                /\ startsWith text (lit "<") = false).
  { destruct text as [|x text]; [done|].
    apply not_elem_of_cons in Hlt as [Hx _].
    split; [change (lit "</") with (LT :: lit "/")
           |change (lit "<") with (LT :: [])];
      apply startsWith_head_ne; congruence. }
  destruct Ht1 as [Ht1 Ht2].
  unfold formatHTML. rewrite Hsplit. cbn [foldl].
  change (format_step ([], 0%nat) []) with (@nil char, 0%nat).
  assert (E1 : format_step ([], 0%nat) opening
               = (NEWLINE :: opening, 1%nat)).
  { unfold format_step. rewrite Ho. unfold opening at 1.
    fold opening. rewrite Ho1, Ho2. fold opening in Hvoid. rewrite Hvoid.
    done. }
  rewrite E1.
  assert (E2 : format_step (NEWLINE :: opening, 1%nat) text
               = ((NEWLINE :: opening) ++ NEWLINE :: tab ++ trim text, 1%nat)).
  { unfold format_step. destruct (trim text) eqn:E; [done|].
    rewrite Ht1, Ht2. cbn [andb]. unfold emit.
    by change (repeat_tab 1) with tab. }
  rewrite E2.
  assert (E3 : forall f, format_step (f, 1%nat) closing
               = (f ++ NEWLINE :: closing, 0%nat)).
  { intros f. unfold format_step. rewrite Hcl. unfold closing at 1.
    fold closing. by change (startsWith closing (lit "</")) with true. }
  rewrite E3.
  change (format_step (?f, 0%nat) []) with (f, 0%nat). cbn [fst].
  set (laid := opening ++ NEWLINE :: tab ++ trim text ++ NEWLINE :: closing).
  replace (((NEWLINE :: opening) ++ NEWLINE :: tab ++ trim text)
             ++ NEWLINE :: closing) with (NEWLINE :: laid)
    by (unfold laid;
        by repeat (rewrite <- app_assoc || rewrite <- app_comm_cons)).
  rewrite trim_cons_ws by done.
  assert (E : laid = LT :: (name ++ [GT] ++ NEWLINE :: tab ++ trim text
                              ++ NEWLINE :: LT :: 47 :: cname) ++ [GT]).
  { unfold laid, opening, closing.
    by repeat (rewrite <- app_assoc || rewrite <- app_comm_cons). }
  rewrite E. by apply trim_fixed.
Qed.

Lemma formatHTML_element_witness :
  formatHTML ((LT :: lit "p" ++ [GT]) ++ lit " Hi "
                ++ LT :: 47 :: lit "p" ++ [GT])
  = (LT :: lit "p" ++ [GT]) ++ NEWLINE :: tab ++ trim (lit " Hi ")
    ++ NEWLINE :: LT :: 47 :: lit "p" ++ [GT].
Proof.
  apply formatHTML_element; try (by vm_compute);
    by (apply (bool_decide_unpack _); vm_compute).
Defined.

End FormatProperties.

(** ** Properties of the captures of [exportProject] *)

Section ExportProperties.

Import ExportProject.

Implicit Types (s pat before behind html opening closing : jsstring).

Lemma cut_Some s pat : forall before behind,
  cut s pat = Some (before, behind) ->
  s = before ++ pat ++ behind
  /\ (forall a1 a2, before = a1 ++ a2 -> a2 <> [] ->
        startsWith (a2 ++ pat ++ behind) pat = false).
Proof.
  induction s as [|c s IH]; intros before behind H.
  - simpl in H. destruct (startsWith [] pat) eqn:E; [|done].
    injection H as <- <-. apply startsWith_inv in E as [r E].
    destruct pat; [|done]. split; [done|]. by intros [|] [|].
  - cbn [cut] in H. destruct (startsWith (c :: s) pat) eqn:E.
    + injection H as <- <-. apply startsWith_inv in E as [r E].
      rewrite E, drop_app_length. split; [done|]. by intros [|] [|].
    + destruct (cut s pat) as [[b' behind']|] eqn:Hc; [|done].
      injection H as <- <-. destruct (IH _ _ eq_refl) as [-> Hfirst].
      split; [done|]. intros [|x a1] a2 Ha Hne; simpl in Ha.
      * by rewrite <- Ha.
      * injection Ha as _ ->. by apply (Hfirst a1 a2).
Qed.

Lemma cut_None s pat : cut s pat = None -> includes s pat = false.
Proof.
  induction s as [|c s IH]; cbn [cut includes].
  - by destruct (startsWith [] pat).
  - destruct (startsWith (c :: s) pat); [done|].
    destruct (cut s pat) as [[? ?]|]; [done|]. intros _. by apply IH.
Qed.

Lemma cut_before s pat before behind :
  pat <> [] -> cut s pat = Some (before, behind) ->
  includes before pat = false.
Proof.
  intros Hne H. apply cut_Some in H as [_ Hfirst].
  apply not_true_is_false. intros (a & b & E)%includes_inv.
  specialize (Hfirst a (pat ++ b) E).
  rewrite <- app_assoc, startsWith_app in Hfirst.
  destruct pat; [done|]. by specialize (Hfirst ltac:(done)).
Qed.

(** The cut is at the first occurrence: the pattern stands nowhere
    further to the left. *)
Lemma cut_first s pat before behind :
  cut s pat = Some (before, behind) ->
  forall a r, s = a ++ pat ++ r -> (length before <= length a)%nat.
Proof.
  intros H a r E. apply cut_Some in H as [-> Hfirst].
  destruct (Nat.le_gt_cases (length before) (length a)) as [|Hlt]; [done|].
  exfalso.
  assert (Hb : before = a ++ drop (length a) before).
  { rewrite <- (take_drop (length a) before) at 1. f_equal.
    apply (f_equal (take (length a))) in E.
    rewrite take_app_le in E by lia. by rewrite take_app_length in E. }
  assert (Hne : drop (length a) before <> []).
  { intros Hd. apply (f_equal length) in Hd. rewrite length_drop in Hd.
    simpl in Hd. lia. }
  specialize (Hfirst _ _ Hb Hne).
  rewrite Hb in E at 1. rewrite <- app_assoc in E.
  apply app_inv_head in E. rewrite E, startsWith_app in Hfirst. done.
Qed.

(** The first occurrence is where the cut is. *)
Lemma cut_at_first s pat a r :
  s = a ++ pat ++ r ->
  (forall a' r', s = a' ++ pat ++ r' -> (length a <= length a')%nat) ->
  cut s pat = Some (a, r).
Proof.
  intros E Hfirst. destruct (cut s pat) as [[before behind]|] eqn:Hc.
  - pose proof (cut_first _ _ _ _ Hc a r E) as H1.
    pose proof Hc as Hc'. apply cut_Some in Hc' as [E' _].
    pose proof (Hfirst before behind E') as H2.
    assert (Hl : length before = length a) by lia.
    rewrite E in E'. apply app_inj_1 in E' as [-> E']; [|done].
    by apply app_inv_head in E' as ->.
  - apply cut_None in Hc. rewrite E in Hc. by rewrite includes_intro in Hc.
Qed.

(** X30: the style sheet (or the script) put in the archive is what
    stands between the first opening tag of the page and the first
    closing tag behind it, so it holds no closing tag itself; it is
    empty when the page has no opening tag, or no closing tag behind
    the first opening tag. *)
Theorem capture_between opening closing html :
  closing <> [] ->
  (includes html opening = false -> capture opening closing html = [])
  /\ (forall a rest,
        html = a ++ opening ++ rest ->
        (forall a' r', html = a' ++ opening ++ r' ->
           (length a <= length a')%nat) ->
        includes rest closing = false ->
        capture opening closing html = [])
  /\ (forall a inner b,
        html = a ++ opening ++ inner ++ closing ++ b ->
        (forall a' r', html = a' ++ opening ++ r' ->
           (length a <= length a')%nat) ->
        (forall c' r', inner ++ closing ++ b = c' ++ closing ++ r' ->
           (length inner <= length c')%nat) ->
        capture opening closing html = inner)
  /\ (capture opening closing html <> [] ->
      exists a b,
        html = a ++ opening ++ capture opening closing html ++ closing ++ b
        /\ (forall a' r', html = a' ++ opening ++ r' ->
              (length a <= length a')%nat)
        /\ (forall c' r',
              capture opening closing html ++ closing ++ b
              = c' ++ closing ++ r' ->
              (length (capture opening closing html) <= length c')%nat)
        /\ includes (capture opening closing html) closing = false).
Proof.
  intros Hne. unfold capture. split; [|split; [|split]].
  - intros Hi. destruct (cut html opening) as [[a behind]|] eqn:Ho; [|done].
    apply cut_Some in Ho as [-> _]. by rewrite includes_intro in Hi.
  - intros a rest E Hfirst Hi. rewrite (cut_at_first _ _ _ _ E Hfirst).
    destruct (cut rest closing) as [[inner b]|] eqn:Hc; [|done].
    apply cut_Some in Hc as [-> _]. by rewrite includes_intro in Hi.
  - intros a inner b E Hfirst Hfirst'.
    rewrite (cut_at_first _ _ _ _ E Hfirst).
    by rewrite (cut_at_first _ _ _ _ eq_refl Hfirst').
  - destruct (cut html opening) as [[a behind]|] eqn:Ho; [|done].
    destruct (cut behind closing) as [[inner b]|] eqn:Hc; [|done].
    intros _. exists a, b.
    pose proof (cut_first _ _ _ _ Ho) as Hf.
    pose proof (cut_first _ _ _ _ Hc) as Hf'.
    pose proof (cut_before _ _ _ _ Hne Hc) as Hb.
    apply cut_Some in Ho as [-> _]. apply cut_Some in Hc as [-> _].
    done.
Qed.

(** A page with two style sheets: the first one is taken. *)
Lemma capture_between_witness :
  let html := lit "<html><style>a{}</style><style>b{}</style></html>" in
  css_of html = lit "a{}"
  /\ exists a b,
       html = a ++ lit "<style>" ++ css_of html ++ lit "</style>" ++ b
       /\ (forall a' r', html = a' ++ lit "<style>" ++ r' ->
             (length a <= length a')%nat)
       /\ (forall c' r',
             css_of html ++ lit "</style>" ++ b = c' ++ lit "</style>" ++ r' ->
             (length (css_of html) <= length c')%nat)
       /\ includes (css_of html) (lit "</style>") = false.
Proof.
  intros html. split; [by vm_compute|].
  apply (proj2 (proj2 (proj2 (capture_between (lit "<style>") (lit "</style>")
                                html ltac:(discriminate))))).
  vm_compute. discriminate.
Defined.

End ExportProperties.
